(** * GPS data processor: trajectory reconstruction and kinematics pipeline

    A shallow embedding of the pipeline of [main.go]
    ([readCSV], [groupByID], [processGroups], [filterRecords]) together
    with the properties the specification states about it.

    Conventions of the embedding:
    - Go's [float64] is the IEEE-754 binary64 model of the Standard
      Library ([spec_float] with precision 53 and maximal exponent 1024);
    - Go's [int] is a 64-bit two's complement integer, carried as [Z] with
      the wrap-around written out ([wrap64]);
    - [time.Time] is an instant (seconds, nanoseconds) plus a zone offset;
      [Before], [Sub] and [Seconds] follow the documentation of package
      [time];
    - the Go map built by [groupByID] is a [gmap]; the order in which
      [range] visits it is not fixed by the language, so [processGroups]
      takes the visiting sequence as an argument;
    - [sort.Slice] is any function meeting the contract of package [sort]
      (the result is a sorted permutation; stability is not promised);
    - the writers ([writeOutputCSV], [writeOutputKML]) return what they
      hand to the file, the formatting verbs of [fmt] and [time] being
      parameters; [getOutputFilename] and [findSingleFileByExtension]
      follow [filepath.Ext] and [strings.Contains], the directory listing
      being an argument. *)

From Stdlib Require Import ZArith List Bool Lia String Ascii.
From Stdlib Require Import SpecFloat.
From Stdlib Require Import Reals Lra Machin.
From stdpp Require Import gmap strings list fin_maps sorting.

Local Open Scope Z_scope.

(** ** float64 *)

Module Float64.

Definition float64 : Type := spec_float.

Definition prec : Z := 53.
Definition emax : Z := 1024.

Definition zero : float64 := S754_zero false.

(** Conversion of an integer, as in [float64(n)]: round to nearest even. *)
Definition of_int (n : Z) : float64 := binary_normalize prec emax n 0 false.

Definition add (x y : float64) : float64 := SFadd prec emax x y.
Definition sub (x y : float64) : float64 := SFsub prec emax x y.
Definition mul (x y : float64) : float64 := SFmul prec emax x y.
Definition div (x y : float64) : float64 := SFdiv prec emax x y.
Definition abs (x : float64) : float64 := SFabs x.

(** Go's comparison operators on float64; every one is false on a NaN. *)
Definition lt (x y : float64) : bool := SFltb x y.
Definition le (x y : float64) : bool := SFleb x y.
Definition gt (x y : float64) : bool := SFltb y x.
Definition ge (x y : float64) : bool := SFleb y x.

Definition is_zero (x : float64) : bool :=
  match x with S754_zero _ => true | _ => false end.

End Float64.

Import Float64.

(** ** Machine integers *)

Definition wrap64 (z : Z) : Z := (z + 2 ^ 63) mod 2 ^ 64 - 2 ^ 63.

Definition minInt64 : Z := - 2 ^ 63.
Definition maxInt64 : Z := 2 ^ 63 - 1.

(** ** Package time *)

Module Time.

(** An instant: seconds and nanoseconds (0 <= nsec < 10^9) since the
    zero instant, and the zone offset the value carries along. *)
Record Time : Type := mkTime { sec : Z; nsec : Z; zone : Z }.

(** The zero value of [time.Time]. *)
Definition zeroTime : Time := mkTime 0 0 0.


(** [t.Before(u)] *)
Definition Before (t u : Time) : bool :=
  (sec t <? sec u) || ((sec t =? sec u) && (nsec t <? nsec u)).

(** A [Duration] is an int64 count of nanoseconds. *)
Definition Duration : Type := Z.

Definition Second : Z := 1000000000.

(** [t.Sub(u)]: the duration t-u, saturated to the int64 range. *)
Definition Sub (t u : Time) : Duration :=
  let d := (sec t - sec u) * Second + (nsec t - nsec u) in
  if d <? minInt64 then minInt64
  else if maxInt64 <? d then maxInt64
  else d.

(** [d.Seconds()]:
    sec := d / Second; nsec := d % Second;
    return float64(sec) + float64(nsec)/1e9 *)
Definition Seconds (d : Duration) : float64 :=
  let s := Z.quot d Second in
  let n := Z.rem d Second in
  add (of_int s) (div (of_int n) (of_int 1000000000)).

End Time.

(** ** The data model *)

(** [type Record struct] of main.go ([Record] is a reserved word here). *)
Record GpsRecord : Type := mkRecord {
  ID : string;
  Latitude : float64;
  Longitude : float64;
  Timestamp : Time.Time;
  OriginalRow : Z;
  TimeDiff : float64;
  Distance : float64;
  Speed : float64;
  PreviousRow : Z;
  PrevLatitude : float64;
  PrevLongitude : float64;
  PrevTimestamp : Time.Time
}.

#[global] Instance float64_eq_dec : EqDecision float64.
Proof. unfold float64. solve_decision. Defined.

#[global] Instance Time_eq_dec : EqDecision Time.Time.
Proof. solve_decision. Defined.

#[global] Instance GpsRecord_eq_dec : EqDecision GpsRecord.
Proof. solve_decision. Defined.

(** The four fields a record has when it leaves [readCSV]; the other
    fields of the struct literal are left at their zero values. *)
Definition rawRecord (id : string) (lat lon : float64) (ts : Time.Time)
    (row : Z) : GpsRecord :=
  mkRecord id lat lon ts row zero zero zero 0 zero zero Time.zeroTime.

(** ** Results of fallible code *)

Inductive Failure : Type :=
  | ErrReadingHeader
  | ErrMissingColumns
  | ErrReadingRow
  | ErrInvalidLatitude (row : Z)
  | ErrInvalidLongitude (row : Z)
  | ErrInvalidTimestamp (row : Z).

(** A Go function returning [(T, error)] that may also panic on an index
    out of range. *)
Inductive result (A : Type) : Type :=
  | Ok (a : A)
  | Err (e : Failure)
  | Panic.

Arguments Ok {A} a.
Arguments Err {A} e.
Arguments Panic {A}.

Definition bind {A B : Type} (r : result A) (k : A -> result B) : result B :=
  match r with
  | Ok a => k a
  | Err e => Err e
  | Panic => Panic
  end.

#[global] Instance result_bind : MBind result :=
  fun A B k r => bind r k.
#[global] Instance result_ret : MRet result := fun A a => Ok a.

(** [row[i]] on a slice of strings. *)
Definition index (row : list string) (i : Z) : result string :=
  if i <? 0 then Panic
  else match row !! Z.to_nat i with
       | Some s => Ok s
       | None => Panic
       end.

Definition orFail {A : Type} (o : option A) (e : Failure) : result A :=
  match o with
  | Some a => Ok a
  | None => Err e
  end.

(** ** readCSV *)

(** [Config.Columns] *)
Record Columns : Type := mkColumns {
  colID : string;
  colLatitude : string;
  colLongitude : string;
  colTimestamp : string
}.

(** What one call of [reader.Read()] of encoding/csv returns: a row, or an
    error other than io.EOF. The end of the list of reads is io.EOF. *)
Inductive Read : Type :=
  | ReadRow (fields : list string)
  | ReadErr.

Record ColumnIdx : Type := mkColumnIdx {
  idIdx : Z;
  latIdx : Z;
  lonIdx : Z;
  timestampIdx : Z
}.

(** One iteration of [for i, col := range header { switch col { ... } }]:
    the first case that matches is taken. *)
Definition headerCase (c : Columns) (i : Z) (col : string) (x : ColumnIdx)
    : ColumnIdx :=
  if String.eqb col (colID c) then
    mkColumnIdx i (latIdx x) (lonIdx x) (timestampIdx x)
  else if String.eqb col (colLatitude c) then
    mkColumnIdx (idIdx x) i (lonIdx x) (timestampIdx x)
  else if String.eqb col (colLongitude c) then
    mkColumnIdx (idIdx x) (latIdx x) i (timestampIdx x)
  else if String.eqb col (colTimestamp c) then
    mkColumnIdx (idIdx x) (latIdx x) (lonIdx x) i
  else x.

Fixpoint scanHeader (c : Columns) (i : Z) (header : list string)
    (x : ColumnIdx) : ColumnIdx :=
  match header with
  | [] => x
  | col :: rest => scanHeader c (i + 1) rest (headerCase c i col x)
  end.

Section ReadCSV.

(** [strconv.ParseFloat(s, 64)] and [time.Parse(time.RFC3339, s)]. *)
Variable ParseFloat : string -> option float64.
Variable ParseTime : string -> option Time.Time.

(** The loop over the data rows; [rowNumber] and [records] are the loop's
    variables. *)
Fixpoint readRows (x : ColumnIdx) (reads : list Read) (rowNumber : Z)
    (records : list GpsRecord) : result (list GpsRecord) :=
  match reads with
  | [] => Ok records
  | ReadErr :: _ => Err ErrReadingRow
  | ReadRow row :: rest =>
      let rowNumber := wrap64 (rowNumber + 1) in
      slat ← index row (latIdx x);
      lat ← orFail (ParseFloat slat) (ErrInvalidLatitude rowNumber);
      slon ← index row (lonIdx x);
      lon ← orFail (ParseFloat slon) (ErrInvalidLongitude rowNumber);
      sts ← index row (timestampIdx x);
      ts ← orFail (ParseTime sts) (ErrInvalidTimestamp rowNumber);
      id ← index row (idIdx x);
      readRows x rest rowNumber
        (records ++ [rawRecord id lat lon ts rowNumber])
  end.

(** [readCSV], from the reads of the csv reader on: the first read is the
    header. Opening the file and the progress bar are left out. *)
Definition readCSV (reads : list Read) (config : Columns)
    : result (list GpsRecord) :=
  match reads with
  | [] => Err ErrReadingHeader
  | ReadErr :: _ => Err ErrReadingHeader
  | ReadRow header :: rest =>
      let x := scanHeader config 0 header (mkColumnIdx (-1) (-1) (-1) (-1)) in
      if (idIdx x =? -1) || (latIdx x =? -1) || (lonIdx x =? -1)
         || (timestampIdx x =? -1)
      then Err ErrMissingColumns
      else readRows x rest 1 []
  end.

End ReadCSV.

(** ** groupByID *)

(** [groups[record.ID] = append(groups[record.ID], record)]; a key that is
    absent reads as the nil slice. *)
Definition groupInsert (groups : gmap string (list GpsRecord))
    (record : GpsRecord) : gmap string (list GpsRecord) :=
  <[ID record := default [] (groups !! ID record) ++ [record]]> groups.

Definition groupByID (records : list GpsRecord)
    : gmap string (list GpsRecord) :=
  foldl groupInsert ∅ records.

(** ** Package sort *)

(** What [sort.Slice] asks of its [less]: a strict weak ordering. *)
Record StrictWeakOrder {A : Type} (less : A -> A -> bool) : Prop := {
  swo_irrefl : forall a, less a a = false;
  swo_trans : forall a b c,
    less a b = true -> less b c = true -> less a c = true;
  swo_incomp : forall a b c,
    less a b = false -> less b c = false -> less a c = false
}.

(** No element is less than one that comes before it. *)
Definition SortedBy {A : Type} (less : A -> A -> bool) (l : list A) : Prop :=
  StronglySorted (fun a b => less b a = false) l.

(** [sort.Slice(x, less)]: "Slice sorts the slice x given the provided less
    function. The sort is not guaranteed to be stable: equal elements may
    be reversed from their original order." Any implementation with this
    contract is a [SliceSort]. *)
Record SliceSort : Type := {
  sortSlice : forall A : Type, (A -> A -> bool) -> list A -> list A;
  sortSlice_perm : forall A (less : A -> A -> bool) (l : list A),
    sortSlice A less l ≡ₚ l;
  sortSlice_sorted : forall A (less : A -> A -> bool) (l : list A),
    StrictWeakOrder less -> SortedBy less (sortSlice A less l)
}.

Arguments sortSlice s {A} less l.

(** Two implementations of the contract. [insertRight] puts an element
    after the elements it is not less than, as insertion sort does;
    [insertLeft] puts it before the first element that is not less than
    it. *)
Fixpoint insertRight {A : Type} (less : A -> A -> bool) (x : A) (l : list A)
    : list A :=
  match l with
  | [] => [x]
  | y :: rest =>
      if less x y then x :: y :: rest else y :: insertRight less x rest
  end.

Fixpoint insertLeft {A : Type} (less : A -> A -> bool) (x : A) (l : list A)
    : list A :=
  match l with
  | [] => [x]
  | y :: rest =>
      if less y x then y :: insertLeft less x rest else x :: y :: rest
  end.

Definition insertionSort {A : Type} (less : A -> A -> bool) (l : list A)
    : list A :=
  foldl (fun acc x => insertRight less x acc) [] l.

Definition reversingSort {A : Type} (less : A -> A -> bool) (l : list A)
    : list A :=
  foldl (fun acc x => insertLeft less x acc) [] l.

(** ** processGroups *)

(** The closure given to [sort.Slice]:
    [group[i].Timestamp.Before(group[j].Timestamp)]. *)
Definition lessByTimestamp (a b : GpsRecord) : bool :=
  Time.Before (Timestamp a) (Timestamp b).

(** The type of [haversine.Distance(lat1, lon1, lat2, lon2)]. *)
Definition DistanceFn : Type :=
  float64 -> float64 -> float64 -> float64 -> float64.

(** One evaluation of [distance / (timeDiff / 3600)]. *)
Record Division : Type := mkDivision {
  dividend : float64;
  elapsed : float64
}.

Section ProcessGroups.

Variable sorter : SliceSort.

(** [haversine.Distance(lat1, lon1, lat2, lon2)], of the package
    gps-processor/haversine. *)
Variable haversineDistance : DistanceFn.

(** The branch [i > 0] of the loop body: the new value of [group[i]] and
    the divisions evaluated on the way. *)
Definition withPrevious (prev cur : GpsRecord)
    : GpsRecord * list Division :=
  let timeDiff := Time.Seconds (Time.Sub (Timestamp cur) (Timestamp prev)) in
  let distance :=
    haversineDistance (Latitude prev) (Longitude prev)
                      (Latitude cur) (Longitude cur) in
  let '(speed, divs) :=
    if gt timeDiff zero
    then (div distance (div timeDiff (of_int 3600)),
          [mkDivision distance timeDiff])
    else (zero, []) in
  (mkRecord (ID cur) (Latitude cur) (Longitude cur) (Timestamp cur)
            (OriginalRow cur)
            timeDiff distance speed (OriginalRow prev)
            (Latitude prev) (Longitude prev) (Timestamp prev),
   divs).

(** The branch [else]: the first record of the group. [PrevTimestamp] is
    not assigned. *)
Definition firstOfGroup (cur : GpsRecord) : GpsRecord :=
  mkRecord (ID cur) (Latitude cur) (Longitude cur) (Timestamp cur)
           (OriginalRow cur)
           zero zero zero 0 zero zero (PrevTimestamp cur).

(** The variables of the inner loop: the group, updated in place, the
    output so far, and the divisions evaluated so far. *)
Record LoopState : Type := mkLoopState {
  group : list GpsRecord;
  processedRecords : list GpsRecord;
  divisions : list Division
}.

(** The body of [for i := 0; i < len(group); i++]. *)
Definition deriveBody (st : LoopState) (i : nat) : LoopState :=
  match group st !! i with
  | None => st
  | Some cur =>
      if (0 <? i)%nat then
        match group st !! (i - 1)%nat with
        | None => st
        | Some prev =>
            let '(r, d) := withPrevious prev cur in
            mkLoopState (<[i := r]> (group st))
                        (processedRecords st ++ [r])
                        (divisions st ++ d)
        end
      else
        let r := firstOfGroup cur in
        mkLoopState (<[i := r]> (group st))
                    (processedRecords st ++ [r])
                    (divisions st)
  end.

(** The body of [for _, group := range groups]: sort, then derive. *)
Definition processGroup (acc : list GpsRecord * list Division)
    (entry : string * list GpsRecord) : list GpsRecord * list Division :=
  let sorted := sortSlice sorter lessByTimestamp (snd entry) in
  let st := foldl deriveBody (mkLoopState sorted (fst acc) (snd acc))
                  (seq 0 (length sorted)) in
  (processedRecords st, divisions st).

(** [processGroups], run over the groups in the sequence [visit] in which
    [range] yields them. The first loop of the function only counts the
    records for the progress bar and is left out. *)
Definition processGroupsTrace (visit : list (string * list GpsRecord))
    : list GpsRecord * list Division :=
  foldl processGroup ([], []) visit.

Definition processGroups (visit : list (string * list GpsRecord))
    : list GpsRecord :=
  fst (processGroupsTrace visit).

End ProcessGroups.

(** [visit] is a sequence in which [range] may yield the entries of
    [groups]: every entry once, in any order. *)
Definition RangeOver (groups : gmap string (list GpsRecord))
    (visit : list (string * list GpsRecord)) : Prop :=
  visit ≡ₚ map_to_list groups.

(** ** filterRecords *)

(** The body of [for _, record := range records]; the state is [filtered]
    and [speedFilteredCount]. *)
Definition filterBody (filterAboveKph : float64)
    (st : list GpsRecord * Z) (record : GpsRecord) : list GpsRecord * Z :=
  if negb (PreviousRow record =? 0) then
    if ge (Speed record) filterAboveKph
    then (fst st ++ [record], snd st)
    else (fst st, wrap64 (snd st + 1))
  else st.

Definition filterRecords (records : list GpsRecord) (filterAboveKph : float64)
    : list GpsRecord :=
  fst (foldl (filterBody filterAboveKph) ([], 0) records).

(** ** Package haversine (great-circle distance) *)

Module haversine.

Local Open Scope R_scope.

Definition earthRadiusKm : R := 6371.

Definition toRadians (deg : R) : R := deg * PI / 180.

(** The two-argument arctangent, by quadrant. *)
Definition atan2 (y x : R) : R :=
  if Rlt_dec 0 x then atan (y / x)
  else if Rlt_dec x 0 then
    if Rle_dec 0 y then atan (y / x) + PI else atan (y / x) - PI
  else if Rlt_dec 0 y then PI / 2
  else if Rlt_dec y 0 then - (PI / 2)
  else 0.

(** The [a] of the haversine formula. *)
Definition haversineA (lat1 lon1 lat2 lon2 : R) : R :=
  let phi1 := toRadians lat1 in
  let phi2 := toRadians lat2 in
  let dphi := toRadians lat2 - toRadians lat1 in
  let dlambda := toRadians lon2 - toRadians lon1 in
  (sin (dphi / 2))² + cos phi1 * cos phi2 * (sin (dlambda / 2))².

(** Modelled from the spec: the package gps-processor/haversine is not
    among the sources; this is the formula of section 4.1 of the
    specification, over the real numbers: convert to radians,
    a = sin²(Δφ/2) + cos(φ1)·cos(φ2)·sin²(Δλ/2),
    distance = 2·R·atan2(√a, √(1-a)) with R = 6371 km. *)
Definition Distance (lat1 lon1 lat2 lon2 : R) : R :=
  let a := haversineA lat1 lon1 lat2 lon2 in
  2 * earthRadiusKm * atan2 (sqrt a) (sqrt (1 - a)).

End haversine.

(** * Reading the code's results *)

(** The test a record passes to be kept. *)
Definition keeps (filterAboveKph : float64) (r : GpsRecord) : bool :=
  negb (PreviousRow r =? 0) && ge (Speed r) filterAboveKph.

Definition hasID (k : string) (r : GpsRecord) : Prop := ID r = k.

#[global] Instance hasID_dec (k : string) (r : GpsRecord) :
  Decision (hasID k r).
Proof. unfold hasID. apply _. Defined.

(** A record as [readCSV] makes it: the derived fields hold zero values. *)
Definition fresh (r : GpsRecord) : Prop :=
  r = rawRecord (ID r) (Latitude r) (Longitude r) (Timestamp r)
                (OriginalRow r).

(** What the loop leaves at index [i] of a group [g], read off the group
    as it was before the loop. *)
Definition derivedAt (hd : DistanceFn) (g : list GpsRecord) (i : nat)
    (cur : GpsRecord) : GpsRecord :=
  match i with
  | O => firstOfGroup cur
  | S j => match g !! j with
           | Some prev => fst (withPrevious hd prev cur)
           | None => cur
           end
  end.

Definition derived (hd : DistanceFn) (g : list GpsRecord)
    : list GpsRecord :=
  imap (derivedAt hd g) g.

Definition divisionsAt (hd : DistanceFn) (g : list GpsRecord) (i : nat)
    (cur : GpsRecord) : list Division :=
  match i with
  | O => []
  | S j => match g !! j with
           | Some prev => snd (withPrevious hd prev cur)
           | None => []
           end
  end.

Definition divided (hd : DistanceFn) (g : list GpsRecord)
    : list Division :=
  concat (imap (divisionsAt hd g) g).

(** The loop only writes the derived fields. *)
Definition sameRaw (a b : GpsRecord) : Prop :=
  ID a = ID b /\ Latitude a = Latitude b /\ Longitude a = Longitude b
  /\ Timestamp a = Timestamp b /\ OriginalRow a = OriginalRow b.

(** The records one group contributes, and the divisions it evaluates. *)
Definition groupOutput (sorter : SliceSort) (hd : DistanceFn)
    (g : list GpsRecord) : list GpsRecord :=
  derived hd (sortSlice sorter lessByTimestamp g).

Definition groupDivisions (sorter : SliceSort) (hd : DistanceFn)
    (g : list GpsRecord) : list Division :=
  divided hd (sortSlice sorter lessByTimestamp g).


(** Every group carries the records of its own key. *)
Definition WellKeyed (visit : list (string * list GpsRecord)) : Prop :=
  forall k g, (k, g) ∈ visit -> Forall (hasID k) g.

(** The record's timestamp is the instant [t] (as [t.Equal] tells). *)
Definition atInstant (t : Time.Time) (r : GpsRecord) : Prop :=
  Time.sec (Timestamp r) = Time.sec t /\ Time.nsec (Timestamp r) = Time.nsec t.

#[global] Instance atInstant_dec (t : Time.Time) (r : GpsRecord) :
  Decision (atInstant t r).
Proof. unfold atInstant. apply _. Defined.

(** Stability of a sort by timestamp: the records of one instant keep
    their relative order. *)
Definition StableByTimestamp (sorter : SliceSort) : Prop :=
  forall (g : list GpsRecord) (t : Time.Time),
    filter (atInstant t) (sortSlice sorter lessByTimestamp g)
    = filter (atInstant t) g.

(** No two records of the group have the same instant. *)
Definition DistinctInstants (g : list GpsRecord) : Prop :=
  forall (i j : nat) a b, g !! i = Some a -> g !! j = Some b -> i <> j ->
    ~ atInstant (Timestamp a) b.

(** * Sample inputs *)

(** Stand-ins for the library parsers, defined on the strings the samples
    use. *)
Definition sampleParseFloat (s : string) : option float64 :=
  if String.eqb s "0" then Some (of_int 0)
  else if String.eqb s "1" then Some (of_int 1)
  else if String.eqb s "40" then Some (of_int 40)
  else if String.eqb s "41" then Some (of_int 41)
  else if String.eqb s "-74" then Some (of_int (-74))
  else None.

(** 2023-03-01T12:00:00Z, in seconds since the zero instant. *)
Definition noon : Z := 63813268800.

Definition sampleParseTime (s : string) : option Time.Time :=
  if String.eqb s "2023-03-01T12:00:00Z" then Some (Time.mkTime noon 0 0)
  else if String.eqb s "2023-03-01T12:01:00Z"
  then Some (Time.mkTime (noon + 60) 0 0)
  else None.

Definition sampleConfig : Columns :=
  mkColumns "ID" "latitude" "longitude" "timestamp".

(** A file of two devices with two rows each, the rows interleaved; the
    first device moves, the second stays where it is. *)
Definition sampleReads : list Read :=
  [ ReadRow ["ID"; "latitude"; "longitude"; "timestamp"];
    ReadRow ["d1"; "40"; "-74"; "2023-03-01T12:00:00Z"];
    ReadRow ["d2"; "0"; "0"; "2023-03-01T12:00:00Z"];
    ReadRow ["d1"; "41"; "-74"; "2023-03-01T12:01:00Z"];
    ReadRow ["d2"; "0"; "0"; "2023-03-01T12:01:00Z"] ].

Definition sampleRecords : list GpsRecord :=
  [ rawRecord "d1" (of_int 40) (of_int (-74)) (Time.mkTime noon 0 0) 2;
    rawRecord "d2" (of_int 0) (of_int 0) (Time.mkTime noon 0 0) 3;
    rawRecord "d1" (of_int 41) (of_int (-74)) (Time.mkTime (noon + 60) 0 0) 4;
    rawRecord "d2" (of_int 0) (of_int 0) (Time.mkTime (noon + 60) 0 0) 5 ].

Definition sampleGroup1 : list GpsRecord :=
  [ rawRecord "d1" (of_int 40) (of_int (-74)) (Time.mkTime noon 0 0) 2;
    rawRecord "d1" (of_int 41) (of_int (-74)) (Time.mkTime (noon + 60) 0 0) 4 ].

Definition sampleGroup2 : list GpsRecord :=
  [ rawRecord "d2" (of_int 0) (of_int 0) (Time.mkTime noon 0 0) 3;
    rawRecord "d2" (of_int 0) (of_int 0) (Time.mkTime (noon + 60) 0 0) 5 ].

(** The two sequences in which [range] can yield the two groups. *)
Definition sampleVisit12 : list (string * list GpsRecord) :=
  [("d1", sampleGroup1); ("d2", sampleGroup2)].

Definition sampleVisit21 : list (string * list GpsRecord) :=
  [("d2", sampleGroup2); ("d1", sampleGroup1)].

(** A stand-in for the distance function: 111 km per degree of latitude
    plus 111 km per degree of longitude. *)
Definition sampleDistance : DistanceFn :=
  fun lat1 lon1 lat2 lon2 =>
    mul (of_int 111) (add (abs (sub lat2 lat1)) (abs (sub lon2 lon1))).

(** Thirteen records of one device: rows 2 to 13 carry the same timestamp
    and row 14 an earlier one. The group is longer than the slices that
    package sort handles by plain insertion. *)
Definition tieGroup : list GpsRecord :=
  map (fun i => rawRecord "d1" (of_int 40) (of_int (-74))
                  (Time.mkTime (noon + 60) 0 0) (Z.of_nat i + 2))
      (seq 0 12)
  ++ [rawRecord "d1" (of_int 41) (of_int (-74)) (Time.mkTime noon 0 0) 14].

(** * The rest of main.go *)

(** ** filterRecords: the count it reports *)

(** [speedFilteredCount] after the loop of [filterRecords]: the number in
    "Removed %d records with speed below ...". *)
Definition speedFilteredCount (records : list GpsRecord)
    (filterAboveKph : float64) : Z :=
  snd (foldl (filterBody filterAboveKph) ([], 0) records).

(** ** Paths and file names *)

(** The two families of systems the tool is built for. *)
Inductive OS : Type := Unix | Windows.

(** [os.IsPathSeparator(c)]: the slash, and on Windows the backslash
    (character 92) too. *)
Definition IsPathSeparator (os : OS) (c : ascii) : bool :=
  match os with
  | Unix => Ascii.eqb c "/"
  | Windows => Ascii.eqb c (ascii_of_nat 92) || Ascii.eqb c "/"
  end.

(** The loop of [filepath.Ext]:
    for i := len(path) - 1; i >= 0 && !os.IsPathSeparator(path[i]); i--
      { if path[i] == '.' { return path[i:] } }
    return ""
    [before] holds path[0..i] in reverse, [after] is path[i+1:]. *)
Fixpoint extScan (os : OS) (before : list ascii) (after : list ascii)
    : list ascii :=
  match before with
  | [] => []
  | c :: rest =>
      if IsPathSeparator os c then []
      else if Ascii.eqb c "." then c :: after
      else extScan os rest (c :: after)
  end.

Definition Ext (os : OS) (path : string) : string :=
  string_of_list_ascii (extScan os (rev (list_ascii_of_string path)) []).

(** [strings.Contains(s, substr)]: [substr] starts at some index of [s]. *)
Fixpoint Contains (s substr : string) : bool :=
  String.prefix substr s
  || match s with
     | EmptyString => false
     | String _ rest => Contains rest substr
     end.

(** [getOutputFilename(inputFile, format)] *)
Definition getOutputFilename (os : OS) (inputFile format : string) : string :=
  let ext := Ext os inputFile in
  let baseName :=
    substring 0 (String.length inputFile - String.length ext) inputFile in
  if String.eqb format "kml" then (baseName ++ "_processed.kml")%string
  else (baseName ++ "_processed.csv")%string.

(** An entry of [os.ReadDir(".")]. *)
Record DirEntry : Type := mkDirEntry {
  Name : string;
  IsDir : bool
}.

(** The loop of [findSingleFileByExtension] that collects
    [matchingFiles]. *)
Definition matchBody (os : OS) (extension : string)
    (matchingFiles : list string) (file : DirEntry) : list string :=
  if IsDir file then matchingFiles
  else
    let filename := Name file in
    if String.eqb (Ext os filename) extension then
      if negb (Contains filename "_processed")
      then matchingFiles ++ [filename]
      else matchingFiles
    else matchingFiles.

(** [findSingleFileByExtension(extension)]; [files] is what
    [os.ReadDir(".")] returned, [None] when it failed. *)
Definition findSingleFileByExtension (os : OS)
    (files : option (list DirEntry)) (extension : string) : string :=
  match files with
  | None => ""
  | Some files =>
      match foldl (matchBody os extension) [] files with
      | [filename] => filename
      | _ => ""
      end
  end.

(** ** writeOutputCSV *)

Section Writers.

(** [fmt.Sprintf] with the verbs "%f", "%.2f", "%.6f" and "%d", and
    [t.Format(time.RFC3339)]. *)
Variable Sprintf_f : float64 -> string.
Variable Sprintf_2f : float64 -> string.
Variable Sprintf_6f : float64 -> string.
Variable Sprintf_d : Z -> string.
Variable FormatRFC3339 : Time.Time -> string.




End Writers.

(** ** Reading the header scan *)

(** The index of the last column of [header] named [name], counted from
    [i], or [found] when there is none. *)
Fixpoint lastIndexFrom (name : string) (i : Z) (header : list string)
    (found : Z) : Z :=
  match header with
  | [] => found
  | col :: rest =>
      lastIndexFrom name (i + 1) rest (if String.eqb col name then i else found)
  end.

(** The four configured column names differ from each other. *)
Definition DistinctColumns (c : Columns) : Prop :=
  colID c <> colLatitude c /\ colID c <> colLongitude c
  /\ colID c <> colTimestamp c /\ colLatitude c <> colLongitude c
  /\ colLatitude c <> colTimestamp c /\ colLongitude c <> colTimestamp c.

(** The row number a failure message carries. *)
Definition failureRow (e : Failure) : option Z :=
  match e with
  | ErrInvalidLatitude n | ErrInvalidLongitude n | ErrInvalidTimestamp n =>
      Some n
  | _ => None
  end.

(** What the body of the row loop makes of one row: the record, or the
    failure it returns with. *)
Definition rowRecord (ParseFloat : string -> option float64)
    (ParseTime : string -> option Time.Time) (x : ColumnIdx)
    (row : list string) (rowNumber : Z) : result GpsRecord :=
  slat ← index row (latIdx x);
  lat ← orFail (ParseFloat slat) (ErrInvalidLatitude rowNumber);
  slon ← index row (lonIdx x);
  lon ← orFail (ParseFloat slon) (ErrInvalidLongitude rowNumber);
  sts ← index row (timestampIdx x);
  ts ← orFail (ParseTime sts) (ErrInvalidTimestamp rowNumber);
  id ← index row (idIdx x);
  Ok (rawRecord id lat lon ts rowNumber).

(** The fields of a record that hold its input. *)
Definition rawOf (r : GpsRecord)
    : string * float64 * float64 * Time.Time * Z :=
  (ID r, Latitude r, Longitude r, Timestamp r, OriginalRow r).

(** A time as [time.Parse] makes it: the nanoseconds are within the
    second. *)
Definition WellFormedTime (t : Time.Time) : Prop :=
  0 <= Time.nsec t < Time.Second.

(** A float64 that is zero, positive or plus infinity. *)
Definition NonNegative (x : float64) : Prop :=
  match x with
  | S754_zero _ | S754_infinity false | S754_finite false _ _ => True
  | _ => False
  end.

(** A directory entry that [findSingleFileByExtension] counts: a file, not
    a directory, with the extension asked for and without "_processed" in
    its name. *)
Definition isCandidate (os : OS) (extension : string) (file : DirEntry)
    : bool :=
  negb (IsDir file) && String.eqb (Ext os (Name file)) extension
  && negb (Contains (Name file) "_processed").


(** Stand-ins for the formatting functions, on the values of the samples;
    [sampleParseFloat] and [sampleParseTime] read back what they write. *)
Definition sampleSprintf_f (x : float64) : string :=
  if decide (x = of_int 1) then "1"
  else if decide (x = of_int 40) then "40"
  else if decide (x = of_int 41) then "41"
  else if decide (x = of_int (-74)) then "-74"
  else "0".

Definition sampleSprintf_d (n : Z) : string :=
  if n =? 2 then "2" else if n =? 3 then "3" else if n =? 4 then "4"
  else if n =? 5 then "5" else "0".

Definition sampleFormatRFC3339 (t : Time.Time) : string :=
  if Time.sec t =? noon + 60 then "2023-03-01T12:01:00Z"
  else "2023-03-01T12:00:00Z".


(** ** writeOutputKML *)

(** The double quote character. *)
Definition dq : string := String (ascii_of_nat 34) EmptyString.

(** [group[i]] on a slice of records. *)
Definition recordAt (group : list GpsRecord) (i : Z) : result GpsRecord :=
  if i <? 0 then Panic
  else match group !! Z.to_nat i with
       | Some r => Ok r
       | None => Panic
       end.

Definition colors : list string :=
  [ "ff0000ff"; "ff00ff00"; "ffff0000"; "ff00ffff"; "ffff00ff" ].

(** What is written before the loop over the groups; every element is one
    call of [fmt.Fprintln] or [fmt.Fprintf], without its final newline. *)
Definition kmlHeader : list string :=
  [ "<?xml version=" ++ dq ++ "1.0" ++ dq ++ " encoding=" ++ dq ++ "UTF-8"
      ++ dq ++ "?>";
    "<kml xmlns=" ++ dq ++ "http://www.opengis.net/kml/2.2" ++ dq ++ ">";
    "<Document>";
    "  <name>GPS Trajectories</name>";
    "  <description>GPS data processed by GPS Processor</description>";
    "  <Style id=" ++ dq ++ "defaultStyle" ++ dq ++ ">";
    "    <LineStyle>";
    "      <color>ff0000ff</color>";
    "      <width>4</width>";
    "    </LineStyle>";
    "    <IconStyle>";
    "      <color>ff0000ff</color>";
    "      <scale>0.5</scale>";
    "    </IconStyle>";
    "  </Style>" ]%string.

Definition kmlFooter : list string := [ "</Document>"; "</kml>" ].

Section KMLWriter.

Variable Sprintf_f : float64 -> string.
Variable Sprintf_2f : float64 -> string.
Variable Sprintf_6f : float64 -> string.
Variable Sprintf_d : Z -> string.
Variable FormatRFC3339 : Time.Time -> string.
Variable sorter : SliceSort.

(** The style of one device. *)
Definition kmlStyle (styleID color : string) : list string :=
  [ "  <Style id=" ++ dq ++ styleID ++ dq ++ ">";
    "    <LineStyle>";
    "      <color>" ++ color ++ "</color>";
    "      <width>4</width>";
    "    </LineStyle>";
    "    <IconStyle>";
    "      <color>" ++ color ++ "</color>";
    "      <scale>0.5</scale>";
    "    </IconStyle>";
    "  </Style>" ]%string.

(** One line of coordinates: longitude, latitude, altitude 0. *)
Definition kmlCoordinates (record : GpsRecord) : string :=
  ("          " ++ Sprintf_f (Longitude record) ++ ","
     ++ Sprintf_f (Latitude record) ++ ",0")%string.

(** The body of [if record.PreviousRow > 0]. *)
Definition kmlPreviousLines (record : GpsRecord) : list string :=
  [ "Previous Latitude: " ++ Sprintf_f (PrevLatitude record) ++ "<br>";
    "Previous Longitude: " ++ Sprintf_f (PrevLongitude record) ++ "<br>";
    "Previous Timestamp: " ++ FormatRFC3339 (PrevTimestamp record)
      ++ "<br>";
    "Time Difference: " ++ Sprintf_2f (TimeDiff record) ++ " seconds<br>";
    "Distance: " ++ Sprintf_6f (Distance record) ++ " km<br>";
    "Speed: " ++ Sprintf_2f (Speed record) ++ " km/h<br>" ]%string.

Definition kmlPrevious (record : GpsRecord) : list string :=
  if PreviousRow record >? 0 then kmlPreviousLines record else [].

(** The body of [for i, record := range group]: the placemark of one
    point. *)
Definition kmlPoint (id styleID : string) (i : nat) (record : GpsRecord)
    : list string :=
  ([ "    <Placemark>";
     "      <name>Point " ++ Sprintf_d (wrap64 (Z.of_nat i + 1))
       ++ " (Device " ++ id ++ ")</name>";
     "      <description><![CDATA[";
     "ID: " ++ ID record ++ "<br>";
     "Latitude: " ++ Sprintf_f (Latitude record) ++ "<br>";
     "Longitude: " ++ Sprintf_f (Longitude record) ++ "<br>";
     "Timestamp: " ++ FormatRFC3339 (Timestamp record) ++ "<br>";
     "Original Row: " ++ Sprintf_d (OriginalRow record) ++ "<br>";
     "Previous Row: " ++ Sprintf_d (PreviousRow record) ++ "<br>" ]%string
   ++ kmlPrevious record
   ++ [ "      ]]></description>";
        "      <styleUrl>#" ++ styleID ++ "</styleUrl>";
        "      <Point>";
        "        <coordinates>";
        kmlCoordinates record;
        "        </coordinates>";
        "      </Point>";
        "    </Placemark>" ]%string)%list.

(** The trajectory placemark of a device, up to its coordinates. *)
Definition kmlTrajectoryHead (id styleID : string) (group : list GpsRecord)
    (first last : GpsRecord) : list string :=
  [ "  <Folder>";
    "    <name>Device " ++ id ++ "</name>";
    "    <Placemark>";
    "      <name>Trajectory of Device " ++ id ++ "</name>";
    "      <description><![CDATA[";
    "Number of points: " ++ Sprintf_d (Z.of_nat (length group)) ++ "<br>";
    "Start time: " ++ FormatRFC3339 (Timestamp first) ++ "<br>";
    "End time: " ++ FormatRFC3339 (Timestamp last) ++ "<br>";
    "      ]]></description>";
    "      <styleUrl>#" ++ styleID ++ "</styleUrl>";
    "      <LineString>";
    "        <extrude>1</extrude>";
    "        <tessellate>1</tessellate>";
    "        <altitudeMode>clampToGround</altitudeMode>";
    "        <coordinates>" ]%string.

Definition kmlTrajectoryTail : list string :=
  [ "        </coordinates>";
    "      </LineString>";
    "    </Placemark>" ].

(** What one pass of [for id, group := range groups] writes once the
    group is sorted and its colour chosen; [group[0]] and
    [group[len(group)-1]] panic on an empty group. *)
Definition kmlFolder (id color : string) (group : list GpsRecord)
    : result (list string) :=
  let styleID := ("style_" ++ id)%string in
  first ← recordAt group 0;
  last ← recordAt group (wrap64 (Z.of_nat (length group) - 1));
  Ok (kmlStyle styleID color
      ++ kmlTrajectoryHead id styleID group first last
      ++ map kmlCoordinates group
      ++ kmlTrajectoryTail
      ++ concat (imap (kmlPoint id styleID) group)
      ++ [ "  </Folder>" ]).

(** The body of [for id, group := range groups]; the state is what has
    been written and [idCount]. *)
Definition kmlBody (st : list string * Z) (entry : string * list GpsRecord)
    : result (list string * Z) :=
  let '(written, idCount) := st in
  let '(id, unsorted) := entry in
  let group := sortSlice sorter lessByTimestamp unsorted in
  let colorIndex := Z.rem idCount (Z.of_nat (length colors)) in
  color ← index colors colorIndex;
  folder ← kmlFolder id color group;
  Ok (written ++ folder, wrap64 (idCount + 1)).

(** [writeOutputKML]: what is written to the file, when the file can be
    created; [visit] is the sequence in which [range] yields the entries
    of the map that the function builds from [records] as [groupByID]
    does. *)
Definition writeOutputKML (visit : list (string * list GpsRecord))
    : result (list string) :=
  st ← foldl (fun st entry => s ← st; kmlBody s entry)
         (Ok (kmlHeader, 0)) visit;
  Ok (fst st ++ kmlFooter).

End KMLWriter.

(** The number of placemarks opened in a KML output. *)
Definition placemarks (written : list string) : nat :=
  length (List.filter (String.eqb "    <Placemark>") written).

(** * Properties *)

(** ** float64 comparisons *)

Lemma ge_is_le (x y : float64) : ge x y = le y x.
Proof. reflexivity. Qed.

Lemma pos_compare_cont_trans_lt (a b c : positive) :
  Pos.compare_cont Eq a b = Lt -> Pos.compare_cont Eq b c <> Gt ->
  Pos.compare_cont Eq a c = Lt.
Proof.
  change (Pos.compare_cont Eq) with Pos.compare.
  rewrite !Pos.compare_lt_iff, Pos.compare_le_iff. lia.
Qed.

Lemma pos_compare_cont_trans_gt (a b c : positive) :
  Pos.compare_cont Eq a b = Gt -> Pos.compare_cont Eq b c <> Lt ->
  Pos.compare_cont Eq a c = Gt.
Proof.
  change (Pos.compare_cont Eq) with Pos.compare.
  rewrite !Pos.compare_gt_iff, Pos.compare_ge_iff. lia.
Qed.

(** [t1 < t2] and [t2 <= s] give [t1 <= s], NaN and infinities included. *)
Lemma float_lt_le_trans (t1 t2 s : float64) :
  lt t1 t2 = true -> le t2 s = true -> le t1 s = true.
Proof.
  unfold lt, le, SFltb, SFleb, SFcompare.
  destruct t1 as [[]|[]| |[] m1 e1], t2 as [[]|[]| |[] m2 e2],
           s as [[]|[]| |[] m3 e3];
    simpl; try discriminate; try reflexivity.
  - destruct (Z.compare_spec e1 e2), (Z.compare_spec e2 e3),
      (Z.compare_spec e1 e3); try lia; simpl; try discriminate;
      try reflexivity; subst.
    destruct (Pos.compare_cont Eq m1 m2) eqn:H12; simpl; try discriminate.
    destruct (Pos.compare_cont Eq m2 m3) eqn:H23; simpl; try discriminate;
      intros _ _.
    + rewrite (pos_compare_cont_trans_gt m1 m2 m3);
        [reflexivity|assumption|congruence].
    + rewrite (pos_compare_cont_trans_gt m1 m2 m3);
        [reflexivity|assumption|congruence].
  - destruct (Z.compare_spec e1 e2), (Z.compare_spec e2 e3),
      (Z.compare_spec e1 e3); try lia; simpl; try discriminate;
      try reflexivity; subst.
    destruct (Pos.compare_cont Eq m1 m2) eqn:H12; simpl; try discriminate.
    destruct (Pos.compare_cont Eq m2 m3) eqn:H23; simpl; try discriminate;
      intros _ _.
    + rewrite (pos_compare_cont_trans_lt m1 m2 m3);
        [reflexivity|assumption|congruence].
    + rewrite (pos_compare_cont_trans_lt m1 m2 m3);
        [reflexivity|assumption|congruence].
Qed.

(** ** filterRecords *)

Lemma filterBody_foldl (t : float64) (records : list GpsRecord) :
  forall (acc : list GpsRecord) (n : Z),
    fst (foldl (filterBody t) (acc, n) records)
    = acc ++ List.filter (keeps t) records.
Proof.
  induction records as [|r records IH]; intros acc n; simpl.
  - by rewrite app_nil_r.
  - unfold filterBody at 2, keeps. simpl.
    destruct (PreviousRow r =? 0); simpl; [apply IH|].
    destruct (ge (Speed r) t); simpl; rewrite IH; [|done].
    by rewrite <- app_assoc.
Qed.

Lemma filterRecords_filter (records : list GpsRecord) (t : float64) :
  filterRecords records t = List.filter (keeps t) records.
Proof. unfold filterRecords. by rewrite filterBody_foldl. Qed.

Lemma filter_sublist {A : Type} (f : A -> bool) (l : list A) :
  sublist (List.filter f l) l.
Proof.
  induction l as [|x l IH]; simpl; [constructor|].
  destruct (f x); by constructor.
Qed.

Lemma filter_sublist_mono {A : Type} (f g : A -> bool) (l : list A) :
  (forall x, f x = true -> g x = true) ->
  sublist (List.filter f l) (List.filter g l).
Proof.
  intros Hfg. induction l as [|x l IH]; simpl; [constructor|].
  destruct (f x) eqn:Hf.
  - rewrite (Hfg x Hf). by constructor.
  - destruct (g x); [by constructor|done].
Qed.



(** ** The inner loop of processGroups *)

Section DeriveFacts.

Variable hd : DistanceFn.

Lemma withPrevious_raw (prev cur : GpsRecord) :
  sameRaw (fst (withPrevious hd prev cur)) cur.
Proof.
  unfold sameRaw, withPrevious.
  destruct (gt _ zero); simpl; done.
Qed.

Lemma firstOfGroup_raw (cur : GpsRecord) : sameRaw (firstOfGroup cur) cur.
Proof. by unfold sameRaw, firstOfGroup. Qed.

Lemma derivedAt_raw (g : list GpsRecord) (i : nat) (cur : GpsRecord) :
  sameRaw (derivedAt hd g i cur) cur.
Proof.
  destruct i as [|j]; simpl; [apply firstOfGroup_raw|].
  destruct (g !! j); [apply withPrevious_raw|by unfold sameRaw].
Qed.

(** [withPrevious] reads only the raw fields of the predecessor. *)
Lemma withPrevious_sameRaw (p p' cur : GpsRecord) :
  sameRaw p' p -> withPrevious hd p' cur = withPrevious hd p cur.
Proof.
  intros (_ & Hlat & Hlon & Hts & Hrow). unfold withPrevious.
  by rewrite Hlat, Hlon, Hts, Hrow.
Qed.

Lemma length_derived (g : list GpsRecord) : length (derived hd g) = length g.
Proof. unfold derived. by rewrite length_imap. Qed.

Lemma lookup_derived (g : list GpsRecord) (i : nat) :
  derived hd g !! i = derivedAt hd g i <$> g !! i.
Proof. unfold derived. apply list_lookup_imap. Qed.

(** The state after the first [n] rounds of the loop. *)
Lemma deriveBody_rounds (g p : list GpsRecord) (d : list Division) (n : nat) :
  (n <= length g)%nat ->
  foldl (deriveBody hd) (mkLoopState g p d) (seq 0 n)
  = mkLoopState (take n (derived hd g) ++ drop n g)
                (p ++ take n (derived hd g))
                (d ++ concat (take n (imap (divisionsAt hd g) g))).
Proof.
  induction n as [|n IH]; intros Hn.
  - simpl. by rewrite drop_0, !app_nil_r.
  - rewrite seq_S, foldl_app, IH by lia. simpl.
    destruct (lookup_lt_is_Some_2 g n ltac:(lia)) as [cur Hcur].
    assert (Hlen : length (take n (derived hd g)) = n)
      by (rewrite length_take, length_derived; lia).
    assert (Hd : derived hd g !! n = Some (derivedAt hd g n cur))
      by (by rewrite lookup_derived, Hcur).
    assert (Hv : imap (divisionsAt hd g) g !! n = Some (divisionsAt hd g n cur))
      by (by rewrite list_lookup_imap, Hcur).
    unfold deriveBody; simpl.
    assert (Hi : (take n (derived hd g) ++ drop n g) !! n = Some cur).
    { rewrite lookup_app_r by lia. rewrite Hlen, Nat.sub_diag.
      by rewrite lookup_drop, Nat.add_0_r. }
    rewrite Hi.
    assert (Hins : forall r,
      <[n:=r]> (take n (derived hd g) ++ drop n g)
      = take n (derived hd g) ++ r :: drop (S n) g).
    { intros r. rewrite insert_app_r_alt by lia.
      rewrite Hlen, Nat.sub_diag.
      by rewrite (drop_S g cur n Hcur). }
    rewrite (take_S_r _ _ _ Hd), (take_S_r _ _ _ Hv).
    rewrite concat_app; simpl. rewrite app_nil_r.
    destruct n as [|j]; simpl.
    + rewrite Hins. simpl. by rewrite app_nil_r.
    + rewrite Nat.sub_0_r.
      destruct (lookup_lt_is_Some_2 g j ltac:(lia)) as [prev Hprev].
      assert (Hj : (take (S j) (derived hd g) ++ drop (S j) g) !! j
                   = Some (derivedAt hd g j prev)).
      { rewrite lookup_app_l by lia.
        rewrite lookup_take_lt by lia.
        by rewrite lookup_derived, Hprev. }
      rewrite Hj, Hprev.
      rewrite (withPrevious_sameRaw prev _ cur (derivedAt_raw g j prev)).
      destruct (withPrevious hd prev cur) as [r dv] eqn:Hw; simpl.
      rewrite Hins. by rewrite <- !app_assoc.
Qed.

End DeriveFacts.

(** ** groupByID *)

Lemma groupByID_snoc (records : list GpsRecord) (r : GpsRecord) :
  groupByID (records ++ [r]) = groupInsert (groupByID records) r.
Proof. unfold groupByID. by rewrite foldl_app. Qed.

(** The bucket of a key holds the records of that key, in input order; a
    key without records is absent. *)
Lemma groupByID_lookup (records : list GpsRecord) (k : string) :
  groupByID records !! k
  = match filter (hasID k) records with
    | [] => None
    | g => Some g
    end.
Proof.
  induction records as [|r records IH] using rev_ind; [done|].
  rewrite groupByID_snoc, filter_app. unfold groupInsert.
  destruct (decide (ID r = k)) as [Heq|Hne].
  - subst k. rewrite lookup_insert_eq, IH.
    rewrite (filter_cons_True (hasID (ID r)) r []) by done.
    rewrite filter_nil.
    by destruct (filter (hasID (ID r)) records).
  - rewrite lookup_insert_ne by done. rewrite IH.
    rewrite (filter_cons_False (hasID k) r []) by done.
    by rewrite filter_nil, app_nil_r.
Qed.

Lemma groupByID_Some (records g : list GpsRecord) (k : string) :
  groupByID records !! k = Some g ->
  g = filter (hasID k) records /\ g <> [].
Proof.
  rewrite groupByID_lookup.
  destruct (filter (hasID k) records) eqn:E; [done|].
  intros [= <-]. done.
Qed.

(** The buckets together are the input, up to order. *)
Lemma groupByID_concat (records : list GpsRecord) :
  concat (map_to_list (groupByID records)).*2 ≡ₚ records.
Proof.
  induction records as [|r records IH] using rev_ind.
  - unfold groupByID. simpl. by rewrite map_to_list_empty.
  - rewrite groupByID_snoc. unfold groupInsert.
    remember (groupByID records) as m eqn:Hm. clear Hm.
    etrans; [|apply Permutation_cons_append].
    etrans; [|apply perm_skip, IH].
    destruct (m !! ID r) as [g|] eqn:Hk; simpl.
    + rewrite <- (insert_delete_eq m).
      rewrite map_to_list_insert by apply lookup_delete_eq.
      assert (Hp : concat (map_to_list m).*2
                   ≡ₚ g ++ concat (map_to_list (delete (ID r) m)).*2)
        by (by rewrite <- (map_to_list_delete m (ID r) g Hk)).
      etrans; [|apply perm_skip; symmetry; exact Hp].
      simpl. rewrite <- app_assoc. simpl.
      by rewrite <- Permutation_middle.
    + by rewrite map_to_list_insert.
Qed.

Lemma RangeOver_lookup groups visit (k : string) (g : list GpsRecord) :
  RangeOver groups visit -> (k, g) ∈ visit -> groups !! k = Some g.
Proof.
  unfold RangeOver. intros Hv Hin. rewrite Hv in Hin.
  by apply elem_of_map_to_list in Hin.
Qed.

Lemma RangeOver_NoDup groups visit :
  RangeOver groups visit -> NoDup visit.*1.
Proof.
  unfold RangeOver. intros Hv. rewrite Hv. apply NoDup_fst_map_to_list.
Qed.

(** ** processGroups as a concatenation of per-group outputs *)

Section ProcessFacts.

Variable sorter : SliceSort.
Variable hd : DistanceFn.

Lemma processGroup_spec (acc : list GpsRecord * list Division)
    (entry : string * list GpsRecord) :
  processGroup sorter hd acc entry
  = (fst acc ++ groupOutput sorter hd (snd entry),
     snd acc ++ groupDivisions sorter hd (snd entry)).
Proof.
  unfold processGroup, groupOutput, groupDivisions, divided.
  set (sorted := sortSlice sorter lessByTimestamp (snd entry)).
  rewrite deriveBody_rounds by lia. simpl.
  rewrite !firstn_all2; [done| |].
  - by rewrite length_imap.
  - by rewrite length_derived.
Qed.

Lemma processGroup_foldl (visit : list (string * list GpsRecord)) :
  forall acc,
    foldl (processGroup sorter hd) acc visit
    = (fst acc ++ concat (map (fun e => groupOutput sorter hd (snd e)) visit),
       snd acc
       ++ concat (map (fun e => groupDivisions sorter hd (snd e)) visit)).
Proof.
  induction visit as [|e visit IH]; intros [p d]; simpl.
  - by rewrite !app_nil_r.
  - rewrite processGroup_spec, IH. simpl. by rewrite <- !app_assoc.
Qed.

Lemma processGroups_concat (visit : list (string * list GpsRecord)) :
  processGroups sorter hd visit
  = concat (map (fun e => groupOutput sorter hd (snd e)) visit).
Proof.
  unfold processGroups, processGroupsTrace. by rewrite processGroup_foldl.
Qed.

Lemma processGroupsTrace_divisions (visit : list (string * list GpsRecord)) :
  snd (processGroupsTrace sorter hd visit)
  = concat (map (fun e => groupDivisions sorter hd (snd e)) visit).
Proof. unfold processGroupsTrace. by rewrite processGroup_foldl. Qed.

Lemma length_groupOutput (g : list GpsRecord) :
  length (groupOutput sorter hd g) = length g.
Proof.
  unfold groupOutput. rewrite length_derived.
  apply Permutation_length, sortSlice_perm.
Qed.

Lemma length_concat_map {A B : Type} (f : A -> list B) (h : A -> list B)
    (l : list A) :
  (forall a, length (f a) = length (h a)) ->
  length (concat (map f l)) = length (concat (map h l)).
Proof.
  intros Hfh. induction l as [|a l IH]; simpl; [done|].
  by rewrite !length_app, Hfh, IH.
Qed.

(** One derived record per raw record. *)
Lemma length_processGroups (records : list GpsRecord) visit :
  RangeOver (groupByID records) visit ->
  length (processGroups sorter hd visit) = length records.
Proof.
  intros Hv. rewrite processGroups_concat.
  rewrite (length_concat_map _ snd)
    by (intros e; apply length_groupOutput).
  rewrite <- (Permutation_length (groupByID_concat records)).
  apply Permutation_length. unfold RangeOver in Hv. by rewrite Hv.
Qed.

End ProcessFacts.

(** ** Two implementations of sort.Slice *)

Section InsertionSorts.

Context {A : Type} (less : A -> A -> bool).

Lemma insertRight_perm (x : A) (l : list A) : insertRight less x l ≡ₚ x :: l.
Proof.
  induction l as [|y l IH]; simpl; [done|].
  destruct (less x y); [done|].
  rewrite IH. apply perm_swap.
Qed.

Lemma insertLeft_perm (x : A) (l : list A) : insertLeft less x l ≡ₚ x :: l.
Proof.
  induction l as [|y l IH]; simpl; [done|].
  destruct (less y x); [|done].
  rewrite IH. apply perm_swap.
Qed.

Lemma foldl_insert_perm (ins : A -> list A -> list A) (l : list A) :
  (forall x acc, ins x acc ≡ₚ x :: acc) ->
  forall acc, foldl (fun acc x => ins x acc) acc l ≡ₚ l ++ acc.
Proof.
  intros Hins. induction l as [|x l IH]; intros acc; simpl; [done|].
  rewrite IH, Hins. by rewrite <- Permutation_middle.
Qed.

Lemma insertionSort_perm (l : list A) : insertionSort less l ≡ₚ l.
Proof.
  unfold insertionSort.
  rewrite (foldl_insert_perm (insertRight less)) by apply insertRight_perm.
  by rewrite app_nil_r.
Qed.

Lemma reversingSort_perm (l : list A) : reversingSort less l ≡ₚ l.
Proof.
  unfold reversingSort.
  rewrite (foldl_insert_perm (insertLeft less)) by apply insertLeft_perm.
  by rewrite app_nil_r.
Qed.

Hypothesis less_swo : StrictWeakOrder less.

Lemma swo_asym (a b : A) : less a b = true -> less b a = false.
Proof.
  intros Hab. destruct (less b a) eqn:Hba; [|done].
  pose proof (swo_trans less less_swo a b a Hab Hba) as Haa.
  by rewrite (swo_irrefl less less_swo a) in Haa.
Qed.

Lemma insertRight_sorted (x : A) (l : list A) :
  SortedBy less l -> SortedBy less (insertRight less x l).
Proof.
  unfold SortedBy.
  induction l as [|y l IH]; intros Hs; simpl.
  - repeat constructor.
  - apply StronglySorted_inv in Hs as [Hl Hy].
    destruct (less x y) eqn:Hxy.
    + constructor; [by constructor|].
      constructor; [by apply swo_asym|].
      eapply Forall_impl; [exact Hy|]. simpl. intros z Hzy.
      destruct (less z x) eqn:Hzx; [|done].
      by rewrite (swo_trans less less_swo z x y Hzx Hxy) in Hzy.
    + constructor; [by apply IH|].
      rewrite insertRight_perm. by constructor.
Qed.

Lemma insertLeft_sorted (x : A) (l : list A) :
  SortedBy less l -> SortedBy less (insertLeft less x l).
Proof.
  unfold SortedBy.
  induction l as [|y l IH]; intros Hs; simpl.
  - repeat constructor.
  - apply StronglySorted_inv in Hs as [Hl Hy].
    destruct (less y x) eqn:Hyx.
    + constructor; [by apply IH|].
      rewrite insertLeft_perm. constructor; [by apply swo_asym|done].
    + constructor; [by constructor|].
      constructor; [done|].
      eapply Forall_impl; [exact Hy|]. simpl. intros z Hzy.
      by apply (swo_incomp less less_swo z y x).
Qed.

Lemma foldl_insert_sorted (ins : A -> list A -> list A) (l : list A) :
  (forall x acc, SortedBy less acc -> SortedBy less (ins x acc)) ->
  forall acc, SortedBy less acc ->
    SortedBy less (foldl (fun acc x => ins x acc) acc l).
Proof.
  intros Hins. induction l as [|x l IH]; intros acc Hacc; simpl; [done|].
  by apply IH, Hins.
Qed.

Lemma insertionSort_sorted (l : list A) : SortedBy less (insertionSort less l).
Proof.
  apply (foldl_insert_sorted (insertRight less)); [apply insertRight_sorted|].
  constructor.
Qed.

Lemma reversingSort_sorted (l : list A) : SortedBy less (reversingSort less l).
Proof.
  apply (foldl_insert_sorted (insertLeft less)); [apply insertLeft_sorted|].
  constructor.
Qed.

End InsertionSorts.

Definition insertionSorter : SliceSort :=
  {| sortSlice := @insertionSort;
     sortSlice_perm := @insertionSort_perm;
     sortSlice_sorted := fun A less l H => @insertionSort_sorted A less H l |}.

Definition reversingSorter : SliceSort :=
  {| sortSlice := @reversingSort;
     sortSlice_perm := @reversingSort_perm;
     sortSlice_sorted := fun A less l H => @reversingSort_sorted A less H l |}.

(** [Before] on the timestamps is a strict weak ordering of the records. *)
Lemma lessByTimestamp_swo : StrictWeakOrder lessByTimestamp.
Proof.
  unfold lessByTimestamp, Time.Before.
  split; intros; repeat match goal with
    | H : _ || _ = true |- _ => apply orb_true_iff in H
    | H : _ || _ = false |- _ => apply orb_false_iff in H
    | H : _ && _ = true |- _ => apply andb_true_iff in H
    | H : _ && _ = false |- _ => apply andb_false_iff in H
    | |- _ || _ = true => apply orb_true_iff
    | |- _ || _ = false => apply orb_false_iff
    | |- _ && _ = true => apply andb_true_iff
    | |- _ && _ = false => apply andb_false_iff
    end; lia.
Qed.

(** ** readCSV *)

Lemma wrap64_small (z : Z) : minInt64 <= z <= maxInt64 -> wrap64 z = z.
Proof.
  unfold wrap64, minInt64, maxInt64. intros Hz.
  rewrite Z.mod_small by lia. lia.
Qed.

Lemma bind_Ok {A B : Type} (r : result A) (k : A -> result B) (b : B) :
  (r ≫= k) = Ok b -> exists a, r = Ok a /\ k a = Ok b.
Proof.
  unfold mbind, result_bind, bind. destruct r; [eauto|done..].
Qed.

Lemma orFail_Ok {A : Type} (o : option A) (e : Failure) (a : A) :
  orFail o e = Ok a -> o = Some a.
Proof. destruct o; simpl; congruence. Qed.

(** Peel the successful steps off a chain of binds that ends in [Ok]. *)
Ltac unbind H :=
  repeat (let a := fresh "a" in apply bind_Ok in H as (a & _ & H)).

Section ReadCSVFacts.

Variable ParseFloat : string -> option float64.
Variable ParseTime : string -> option Time.Time.

Lemma readRows_Ok (x : ColumnIdx) (reads : list Read) :
  forall (rowNumber : Z) (acc records : list GpsRecord),
    readRows ParseFloat ParseTime x reads rowNumber acc = Ok records ->
    0 <= rowNumber ->
    rowNumber + Z.of_nat (length reads) <= maxInt64 ->
    exists new,
      records = acc ++ new /\ length new = length reads
      /\ forall (k : nat) (r : GpsRecord), new !! k = Some r ->
           OriginalRow r = rowNumber + Z.of_nat k + 1 /\ fresh r.
Proof.
  induction reads as [|rd reads IH]; intros rowNumber acc records Hok H0 Hmax.
  - simpl in Hok. injection Hok as <-. exists []. rewrite app_nil_r.
    split; [done|]. split; [done|].
    intros k r Hk. by rewrite lookup_nil in Hk.
  - destruct rd as [row|]; [|done]. simpl in Hok.
    cbn [length] in Hmax. rewrite Nat2Z.inj_succ in Hmax.
    rewrite (wrap64_small (rowNumber + 1)) in Hok
      by (unfold minInt64, maxInt64 in *; lia).
    unbind Hok.
    apply IH in Hok as (new & -> & Hlen & Hrows); [|lia..].
    eexists (rawRecord _ _ _ _ (rowNumber + 1) :: new).
    rewrite <- app_assoc. simpl. split; [done|]. split; [by rewrite Hlen|].
    intros [|j] r Hj; simpl in Hj.
    + injection Hj as <-. simpl. split; [lia|done].
    + destruct (Hrows j r Hj) as [Hrow Hfresh]. split; [lia|done].
Qed.

Lemma readCSV_Ok (reads : list Read) (config : Columns)
    (records : list GpsRecord) :
  readCSV ParseFloat ParseTime reads config = Ok records ->
  Z.of_nat (length reads) <= maxInt64 ->
  length records = (length reads - 1)%nat
  /\ forall (k : nat) (r : GpsRecord), records !! k = Some r ->
       OriginalRow r = Z.of_nat k + 2 /\ fresh r.
Proof.
  unfold readCSV. destruct reads as [|[header|] rest]; [done| |done].
  destruct (_ || _); [done|]. intros Hok Hmax.
  cbn [length] in *. rewrite Nat2Z.inj_succ in Hmax.
  apply readRows_Ok in Hok as (new & -> & Hlen & Hrows); [|lia..].
  simpl. split; [lia|].
  intros k r Hk. destruct (Hrows k r Hk) as [Hrow Hfresh]. split; [lia|done].
Qed.

End ReadCSVFacts.

(** ** The haversine formula *)

Section HaversineFacts.

Local Open Scope R_scope.
Import haversine.

Lemma PI_bounds : 3.141 < PI < 3.143.
Proof.
  pose proof (PI_2_3_7_ineq 1) as [Hlo Hhi].
  unfold sum_f_R0, tg_alt, PI_2_3_7_tg, Ratan_seq in Hlo, Hhi.
  simpl in Hlo, Hhi.
  split; lra.
Qed.

Lemma sin_half_sqr_swap (x y : R) :
  (sin ((x - y) / 2))² = (sin ((y - x) / 2))².
Proof.
  replace ((x - y) / 2) with (- ((y - x) / 2)) by lra.
  rewrite sin_neg. symmetry. apply Rsqr_neg.
Qed.

Lemma haversineA_sym (lat1 lon1 lat2 lon2 : R) :
  haversineA lat1 lon1 lat2 lon2 = haversineA lat2 lon2 lat1 lon1.
Proof.
  unfold haversineA.
  rewrite (sin_half_sqr_swap (toRadians lat2) (toRadians lat1)).
  rewrite (sin_half_sqr_swap (toRadians lon2) (toRadians lon1)).
  ring.
Qed.

Lemma haversineA_same (lat lon : R) : haversineA lat lon lat lon = 0.
Proof.
  unfold haversineA.
  replace ((toRadians lat - toRadians lat) / 2) with 0 by lra.
  replace ((toRadians lon - toRadians lon) / 2) with 0 by lra.
  rewrite sin_0. unfold Rsqr. ring.
Qed.

Lemma atan2_sin_cos (x : R) :
  - (PI / 2) < x < PI / 2 -> atan2 (sin x) (cos x) = x.
Proof.
  intros Hx. unfold atan2.
  assert (Hc : 0 < cos x) by (apply cos_gt_0; lra).
  destruct (Rlt_dec 0 (cos x)); [|contradiction].
  change (sin x / cos x) with (tan x). by apply atan_tan.
Qed.

Lemma Distance_equator_degree :
  Distance 0 0 0 1 = earthRadiusKm * (PI / 180).
Proof.
  unfold Distance, haversineA, toRadians.
  set (x := (1 * PI / 180 - 0 * PI / 180) / 2).
  assert (Hpi := PI_bounds).
  assert (Hx : 0 < x < PI / 2) by (unfold x; lra).
  replace ((0 * PI / 180 - 0 * PI / 180) / 2) with 0 by lra.
  replace (0 * PI / 180) with 0 by lra.
  rewrite sin_0, cos_0.
  replace (0² + 1 * 1 * (sin x)²) with ((sin x)²) by (unfold Rsqr; ring).
  assert (Hs : 0 < sin x) by (apply sin_gt_0; lra).
  assert (Hc : 0 < cos x) by (apply cos_gt_0; lra).
  rewrite sqrt_Rsqr by lra.
  replace (1 - (sin x)²) with ((cos x)²)
    by (pose proof (sin2_cos2 x); lra).
  rewrite sqrt_Rsqr by lra.
  rewrite atan2_sin_cos by lra.
  unfold x. lra.
Qed.

End HaversineFacts.

(** ** Records as readCSV leaves them *)

Section FreshFacts.

Variable ParseFloat : string -> option float64.
Variable ParseTime : string -> option Time.Time.



End FreshFacts.


(** The records of a group that [range] yields are records of the input
    that carry the key of the group. *)
Lemma RangeOver_group (records : list GpsRecord) visit (k : string)
    (g : list GpsRecord) :
  RangeOver (groupByID records) visit -> (k, g) ∈ visit ->
  g = filter (hasID k) records /\ g <> [].
Proof.
  intros Hv Hin. apply groupByID_Some.
  by apply (RangeOver_lookup _ visit).
Qed.

Section PerGroupFacts.

Variable sorter : SliceSort.
Variable hd : DistanceFn.

Lemma processGroups_app (pre post : list (string * list GpsRecord)) :
  processGroups sorter hd (pre ++ post)
  = processGroups sorter hd pre ++ processGroups sorter hd post.
Proof. rewrite !processGroups_concat. by rewrite map_app, concat_app. Qed.

Lemma processGroups_cons (e : string * list GpsRecord) post :
  processGroups sorter hd (e :: post)
  = groupOutput sorter hd (snd e) ++ processGroups sorter hd post.
Proof. by rewrite !processGroups_concat. Qed.

(** Reading the output at an offset inside the block of one group. *)
Lemma processGroups_lookup pre (k : string) (g : list GpsRecord) post
    (i : nat) :
  (i < length g)%nat ->
  processGroups sorter hd (pre ++ (k, g) :: post)
    !! (length (processGroups sorter hd pre) + i)%nat
  = groupOutput sorter hd g !! i.
Proof.
  intros Hi. rewrite processGroups_app, processGroups_cons. simpl.
  rewrite lookup_app_r by lia.
  replace (length (processGroups sorter hd pre) + i
           - length (processGroups sorter hd pre))%nat with i by lia.
  rewrite lookup_app_l; [done|]. by rewrite length_groupOutput.
Qed.

Lemma groupOutput_lookup (g : list GpsRecord) (i : nat) :
  groupOutput sorter hd g !! i
  = derivedAt hd (sortSlice sorter lessByTimestamp g) i
      <$> sortSlice sorter lessByTimestamp g !! i.
Proof. unfold groupOutput. apply lookup_derived. Qed.

Lemma groupOutput_hasID (k : string) (g : list GpsRecord) :
  Forall (hasID k) g -> Forall (hasID k) (groupOutput sorter hd g).
Proof.
  intros Hg. apply Forall_lookup. intros i r Hr.
  rewrite groupOutput_lookup in Hr.
  destruct (sortSlice sorter lessByTimestamp g !! i) as [cur|] eqn:Hcur;
    [|done].
  injection Hr as <-.
  destruct (derivedAt_raw hd (sortSlice sorter lessByTimestamp g) i cur)
    as (Hid & _).
  unfold hasID. rewrite Hid.
  apply list_elem_of_lookup_2 in Hcur.
  rewrite (sortSlice_perm sorter) in Hcur.
  by apply (proj1 (Forall_forall _ _) Hg).
Qed.

End PerGroupFacts.

(** ** Guarded divisions *)

Lemma float_le_zero_not_gt (x : float64) :
  le x zero = true -> gt x zero = false.
Proof. by destruct x as [[]|[]| |[] m e]. Qed.

Lemma float_gt_zero_not_zero (x : float64) :
  gt x zero = true -> is_zero x = false.
Proof. by destruct x as [[]|[]| |[] m e]. Qed.

Lemma withPrevious_divisions (hd : DistanceFn) (prev cur : GpsRecord) :
  Forall (fun d => gt (elapsed d) zero = true)
         (snd (withPrevious hd prev cur)).
Proof.
  unfold withPrevious. destruct (gt _ zero) eqn:Hgt; simpl.
  - by repeat constructor.
  - constructor.
Qed.

Lemma divided_guarded (hd : DistanceFn) (g : list GpsRecord) :
  Forall (fun d => gt (elapsed d) zero = true) (divided hd g).
Proof.
  unfold divided. apply Forall_concat, Forall_lookup. intros i ds Hds.
  rewrite list_lookup_imap in Hds.
  destruct (g !! i) as [cur|]; [|done]. injection Hds as <-.
  destruct i as [|j]; simpl; [constructor|].
  destruct (g !! j); [apply withPrevious_divisions|constructor].
Qed.

(** ** The output, device by device *)

Lemma filter_all {A : Type} (P : A -> Prop) `{!forall x, Decision (P x)}
    (l : list A) :
  Forall P l -> filter P l = l.
Proof.
  induction 1 as [|x l Hx _ IH]; [done|].
  by rewrite filter_cons_True, IH.
Qed.

Lemma filter_none {A : Type} (P : A -> Prop) `{!forall x, Decision (P x)}
    (l : list A) :
  Forall (fun x => ~ P x) l -> filter P l = [].
Proof.
  induction 1 as [|x l Hx _ IH]; [done|].
  by rewrite filter_cons_False, IH.
Qed.

Lemma filter_List_filter {A : Type} (P : A -> Prop)
    `{!forall x, Decision (P x)} (f : A -> bool) (l : list A) :
  filter P (List.filter f l) = List.filter f (filter P l).
Proof.
  induction l as [|x l IH]; [done|]. simpl.
  destruct (f x) eqn:Hf, (decide (P x)) as [HP|HP].
  - rewrite !filter_cons_True by done. simpl. by rewrite Hf, IH.
  - by rewrite !filter_cons_False.
  - rewrite filter_cons_True by done. simpl. by rewrite Hf.
  - by rewrite filter_cons_False.
Qed.

Lemma List_filter_Permutation {A : Type} (f : A -> bool) (l1 l2 : list A) :
  l1 ≡ₚ l2 -> List.filter f l1 ≡ₚ List.filter f l2.
Proof.
  induction 1 as [|x l1 l2 _ IH|x y l|l1 l2 l3 _ IH1 _ IH2]; simpl.
  - done.
  - destruct (f x); [by constructor|done].
  - destruct (f x), (f y); try done. apply perm_swap.
  - by etrans.
Qed.

Section GroupOrderFacts.

Variable sorter : SliceSort.
Variable hd : DistanceFn.

Lemma RangeOver_WellKeyed (records : list GpsRecord) visit :
  RangeOver (groupByID records) visit -> WellKeyed visit.
Proof.
  intros Hrange k g Hin.
  destruct (RangeOver_group records visit k g Hrange Hin) as [-> _].
  apply Forall_forall. intros r Hr.
  by apply list_elem_of_filter in Hr as [Hr _].
Qed.

Lemma WellKeyed_cons e visit : WellKeyed (e :: visit) -> WellKeyed visit.
Proof. intros Hw k g Hin. apply Hw. by constructor. Qed.

Lemma groupOutput_other_key (k k' : string) (g : list GpsRecord) :
  Forall (hasID k') g -> k <> k' ->
  filter (hasID k) (groupOutput sorter hd g) = [].
Proof.
  intros Hg Hne. apply filter_none.
  eapply Forall_impl; [by apply groupOutput_hasID|].
  unfold hasID. intros r -> Hk. by apply Hne.
Qed.

Lemma processGroups_key_absent (k : string) visit :
  WellKeyed visit -> k ∉ visit.*1 ->
  filter (hasID k) (processGroups sorter hd visit) = [].
Proof.
  induction visit as [|[k' g'] visit IH]; intros Hw Hk.
  - by rewrite processGroups_concat.
  - rewrite processGroups_cons, filter_app. simpl in *.
    apply not_elem_of_cons in Hk as [Hne Hk].
    rewrite (groupOutput_other_key k k' g');
      [|apply Hw; by constructor|done].
    rewrite IH; [done|by eapply WellKeyed_cons|done].
Qed.

Lemma processGroups_key_present (k : string) (g : list GpsRecord) visit :
  WellKeyed visit -> NoDup visit.*1 -> (k, g) ∈ visit ->
  filter (hasID k) (processGroups sorter hd visit) = groupOutput sorter hd g.
Proof.
  induction visit as [|[k' g'] visit IH]; intros Hw Hnd Hin.
  - by apply elem_of_nil in Hin.
  - rewrite processGroups_cons, filter_app. simpl in *.
    apply NoDup_cons in Hnd as [Hk' Hnd].
    apply elem_of_cons in Hin as [[= <- <-]|Hin].
    + rewrite filter_all
        by (apply groupOutput_hasID, Hw; by constructor).
      rewrite processGroups_key_absent;
        [by rewrite app_nil_r|by eapply WellKeyed_cons|done].
    + assert (Hne : k <> k').
      { intros ->. apply Hk'. apply list_elem_of_fmap. by exists (k', g). }
      rewrite (groupOutput_other_key k k' g');
        [|apply Hw; by constructor|done].
      simpl. apply IH; [by eapply WellKeyed_cons|done..].
Qed.

(** The block of one device in the derived output is the same whatever the
    order in which the groups are visited. *)
Lemma processGroups_per_device (records : list GpsRecord) visit (k : string) :
  RangeOver (groupByID records) visit ->
  filter (hasID k) (processGroups sorter hd visit)
  = match groupByID records !! k with
    | Some g => groupOutput sorter hd g
    | None => []
    end.
Proof.
  intros Hrange.
  pose proof (RangeOver_WellKeyed records visit Hrange) as Hw.
  pose proof (RangeOver_NoDup _ visit Hrange) as Hnd.
  destruct (groupByID records !! k) as [g|] eqn:Hk.
  - apply processGroups_key_present; [done..|].
    unfold RangeOver in Hrange. rewrite Hrange.
    by apply elem_of_map_to_list.
  - apply processGroups_key_absent; [done|].
    intros Hin. apply list_elem_of_fmap in Hin as ([k' g] & Heq & Hin).
    simpl in Heq. subst k'.
    by rewrite (RangeOver_lookup _ visit k g Hrange Hin) in Hk.
Qed.

Lemma processGroups_Permutation visit1 visit2 :
  visit1 ≡ₚ visit2 ->
  processGroups sorter hd visit1 ≡ₚ processGroups sorter hd visit2.
Proof.
  intros Hp. rewrite !processGroups_concat.
  induction Hp as [|e l1 l2 _ IH|e1 e2 l|l1 l2 l3 _ IH1 _ IH2]; simpl.
  - done.
  - by rewrite IH.
  - rewrite !app_assoc. apply Permutation_app_tail, Permutation_app_comm.
  - by etrans.
Qed.

End GroupOrderFacts.

(** ** Sorted arrangements *)

Lemma lessByTimestamp_total (a b : GpsRecord) :
  lessByTimestamp a b = false -> lessByTimestamp b a = false ->
  atInstant (Timestamp a) b.
Proof.
  unfold lessByTimestamp, Time.Before, atInstant.
  rewrite !orb_false_iff, !andb_false_iff. lia.
Qed.

Lemma DistinctInstants_NoDup (g : list GpsRecord) :
  DistinctInstants g -> NoDup g.
Proof.
  intros Hd. apply NoDup_alt. intros i j a Hi Hj.
  destruct (decide (i = j)) as [|Hne]; [done|].
  exfalso. by apply (Hd i j a a Hi Hj Hne).
Qed.

(** A group without equal instants has one sorted arrangement only. *)
Lemma sorted_arrangement_unique (g l1 l2 : list GpsRecord) :
  DistinctInstants g -> l1 ≡ₚ g -> l2 ≡ₚ g ->
  SortedBy lessByTimestamp l1 -> SortedBy lessByTimestamp l2 -> l1 = l2.
Proof.
  intros Hd Hp1 Hp2.
  assert (Hnd : NoDup l1)
    by (rewrite Hp1; by apply DistinctInstants_NoDup).
  assert (Htot : forall a b, a ∈ l1 -> b ∈ l1 -> a <> b ->
            lessByTimestamp a b = true \/ lessByTimestamp b a = true).
  { intros a b Ha Hb Hne. rewrite Hp1 in Ha, Hb.
    apply list_elem_of_lookup in Ha as [i Hi], Hb as [j Hj].
    assert (Hij : i <> j) by (intros ->; congruence).
    destruct (lessByTimestamp a b) eqn:Hab; [by left|].
    destruct (lessByTimestamp b a) eqn:Hba; [by right|].
    exfalso. apply (Hd i j a b Hi Hj Hij).
    by apply lessByTimestamp_total. }
  assert (Hp : l1 ≡ₚ l2) by by rewrite Hp1, Hp2.
  clear Hd Hp1 Hp2. unfold SortedBy.
  revert l2 Hp. induction l1 as [|a l1 IH]; intros l2 Hp Hs1 Hs2.
  - by apply Permutation_nil_l in Hp.
  - destruct l2 as [|b l2]; [by apply Permutation_nil_r in Hp|].
    apply StronglySorted_inv in Hs1 as [Hs1 Ha].
    apply StronglySorted_inv in Hs2 as [Hs2 Hb].
    apply NoDup_cons in Hnd as [Hna Hnd].
    destruct (decide (a = b)) as [<-|Hne].
    + f_equal. apply IH; [done| |by apply Permutation_cons_inv in Hp|done..].
      intros x y Hx Hy. apply Htot; by constructor.
    + exfalso.
      assert (Hbin : b ∈ l1).
      { assert (Hb' : b ∈ a :: l1) by (rewrite Hp; by constructor).
        apply elem_of_cons in Hb' as [->|]; done. }
      assert (Hain : a ∈ l2).
      { assert (Ha' : a ∈ b :: l2) by (rewrite <- Hp; by constructor).
        apply elem_of_cons in Ha' as [->|]; done. }
      pose proof (proj1 (Forall_forall _ _) Ha b Hbin) as Hba.
      pose proof (proj1 (Forall_forall _ _) Hb a Hain) as Hab.
      simpl in Hba, Hab.
      destruct (Htot a b) as [H|H];
        [by constructor|by constructor; done|done|..]; congruence.
Qed.

Lemma StronglySorted_lookup {A : Type} (R : A -> A -> Prop) (l : list A)
    (i j : nat) (a b : A) :
  StronglySorted R l -> (i < j)%nat -> l !! i = Some a -> l !! j = Some b ->
  R a b.
Proof.
  intros Hs. revert i j. induction Hs as [|x l Hs IH Hx]; intros i j Hij Hi Hj.
  - by rewrite lookup_nil in Hi.
  - destruct j as [|j]; [lia|]. simpl in Hj.
    destruct i as [|i]; simpl in Hi.
    + injection Hi as <-. apply (proj1 (Forall_forall _ _) Hx).
      by apply list_elem_of_lookup_2 in Hj.
    + apply (IH i j); [lia|done..].
Qed.

Lemma derived_Timestamps (hd : DistanceFn) (g : list GpsRecord) :
  Timestamp <$> derived hd g = Timestamp <$> g.
Proof.
  apply list_eq. intros i. rewrite !list_lookup_fmap, lookup_derived.
  destruct (g !! i) as [cur|]; [|done]. simpl.
  by destruct (derivedAt_raw hd g i cur) as (_ & _ & _ & -> & _).
Qed.

(** * The claims *)

(** ** C1: kinematics derivation *)



(** ** C2: the motion filter *)



(** ** C3: the chronological sequencer *)

(** C3 as stated fails for [sort.Slice]: on [tieGroup], whose rows 2 to 13
    have the same timestamp, an implementation within the contract of
    [sort.Slice] returns those rows in the order 13, 12, ..., 2, and the
    derived output follows that order. So the records of one instant do
    not keep their input order under every implementation of the
    contract. *)
Lemma C3_equal_timestamps_may_swap :
  OriginalRow <$> tieGroup = [2; 3; 4; 5; 6; 7; 8; 9; 10; 11; 12; 13; 14]
  /\ OriginalRow <$> sortSlice reversingSorter lessByTimestamp tieGroup
     = [14; 13; 12; 11; 10; 9; 8; 7; 6; 5; 4; 3; 2]
  /\ OriginalRow
       <$> processGroups reversingSorter sampleDistance [("d1", tieGroup)]
     = [14; 13; 12; 11; 10; 9; 8; 7; 6; 5; 4; 3; 2]
  /\ ~ (forall sorter : SliceSort, StableByTimestamp sorter).
Proof.
  split; [vm_compute; reflexivity|].
  split; [vm_compute; reflexivity|]. split; [vm_compute; reflexivity|].
  intros Hstable.
  specialize (Hstable reversingSorter tieGroup (Time.mkTime (noon + 60) 0 0)).
  vm_compute in Hstable. discriminate.
Qed.

(** C3, as amended. For every device group, [processGroups] reorders the
    records by ascending timestamp: the sorted group is a permutation of
    the group in which no record is before an earlier one, and the derived
    output keeps that order. When no two records of the group have the same
    instant, that order is the same for every implementation of
    [sort.Slice]; the relative order of records with equal timestamps is
    whatever the implementation leaves. *)
Theorem C3_sorted_by_timestamp (sorter : SliceSort) (hd : DistanceFn)
    (g : list GpsRecord) :
  let sorted := sortSlice sorter lessByTimestamp g in
  sorted ≡ₚ g
  /\ (forall (i j : nat) a b, (i < j)%nat ->
        sorted !! i = Some a -> sorted !! j = Some b ->
        Time.Before (Timestamp b) (Timestamp a) = false)
  /\ Timestamp <$> groupOutput sorter hd g = Timestamp <$> sorted
  /\ (DistinctInstants g ->
      forall sorter' : SliceSort,
        sortSlice sorter' lessByTimestamp g = sorted).
Proof.
  intros sorted.
  assert (Hs : SortedBy lessByTimestamp sorted)
    by apply sortSlice_sorted, lessByTimestamp_swo.
  split; [apply sortSlice_perm|]. split; [|split].
  - intros i j a b Hij Hi Hj.
    apply (StronglySorted_lookup _ sorted i j a b Hs Hij Hi Hj).
  - apply derived_Timestamps.
  - intros Hd sorter'.
    apply (sorted_arrangement_unique g); [done|apply sortSlice_perm..| |done].
    apply sortSlice_sorted, lessByTimestamp_swo.
Qed.

(** The amended C3 on a group of the sample file, whose two records have
    different instants: both implementations sort it the same way. *)
Lemma C3_sorted_by_timestamp_witness :
  DistinctInstants sampleGroup1
  /\ sortSlice reversingSorter lessByTimestamp sampleGroup1
     = sortSlice insertionSorter lessByTimestamp sampleGroup1.
Proof.
  assert (Hd : DistinctInstants sampleGroup1).
  { intros [|[|i]] [|[|j]] a b Hi Hj Hij; try done;
      injection Hi as <-; injection Hj as <-; vm_compute; intros [H _];
      discriminate. }
  split; [exact Hd|].
  destruct (C3_sorted_by_timestamp insertionSorter sampleDistance
              sampleGroup1) as (_ & _ & _ & Huniq).
  exact (Huniq Hd reversingSorter).
Defined.

(** ** C4: what two runs agree on *)

(** C4 as stated fails: on the sample file of two devices the two orders
    in which [range] can yield the groups give different output
    sequences, for the same input and the same threshold. *)
Lemma C4_two_runs_differ :
  RangeOver (groupByID sampleRecords) sampleVisit12
  /\ RangeOver (groupByID sampleRecords) sampleVisit21
  /\ filterRecords
       (processGroups insertionSorter sampleDistance sampleVisit12) (of_int 0)
     <> filterRecords
          (processGroups insertionSorter sampleDistance sampleVisit21)
          (of_int 0).
Proof.
  split; [unfold RangeOver; vm_compute; reflexivity|].
  split; [unfold RangeOver; vm_compute; apply perm_swap|].
  vm_compute. discriminate.
Qed.

(** C4, as amended. Two runs of the pipeline on the same raw input with the
    same threshold, visiting the groups in any two orders, produce outputs
    that hold the same records (they are permutations of each other) and
    that agree, for every device, on the sequence of that device's
    records; they are identical when all records belong to one device. *)
Theorem C4_runs_agree_up_to_group_order (sorter : SliceSort)
    (hd : DistanceFn) (records : list GpsRecord)
    (visit1 visit2 : list (string * list GpsRecord)) (t : float64) :
  RangeOver (groupByID records) visit1 ->
  RangeOver (groupByID records) visit2 ->
  let run visit := filterRecords (processGroups sorter hd visit) t in
  run visit1 ≡ₚ run visit2
  /\ (forall k, filter (hasID k) (run visit1) = filter (hasID k) (run visit2))
  /\ (forall k, Forall (hasID k) records -> run visit1 = run visit2).
Proof.
  intros Hr1 Hr2 run.
  assert (Hdev : forall k,
            filter (hasID k) (run visit1) = filter (hasID k) (run visit2)).
  { intros k. unfold run. rewrite !filterRecords_filter.
    rewrite !filter_List_filter.
    by rewrite (processGroups_per_device sorter hd records visit1 k Hr1),
               (processGroups_per_device sorter hd records visit2 k Hr2). }
  split; [|split; [exact Hdev|]].
  - unfold run. rewrite !filterRecords_filter.
    apply List_filter_Permutation, processGroups_Permutation.
    unfold RangeOver in *. by rewrite Hr1, Hr2.
  - intros k Hall.
    assert (Hout : forall visit, RangeOver (groupByID records) visit ->
              Forall (hasID k) (run visit)).
    { intros visit Hrange. unfold run.
      rewrite filterRecords_filter, processGroups_concat.
      apply Forall_forall. intros r Hr.
      apply list_elem_of_In, filter_In in Hr as [Hr _].
      apply in_concat in Hr as (out & Hout & Hr).
      apply in_map_iff in Hout as ([k' g] & <- & Hin). simpl in Hr.
      apply list_elem_of_In in Hin, Hr.
      destruct (RangeOver_group records visit k' g Hrange Hin) as [Hg _].
      assert (Hgk : Forall (hasID k) g).
      { rewrite Hg. apply Forall_forall. intros x Hx.
        apply list_elem_of_filter in Hx as [_ Hx].
        by apply (proj1 (Forall_forall _ _) Hall). }
      by apply (proj1 (Forall_forall _ _)
                  (groupOutput_hasID sorter hd k g Hgk)). }
    rewrite <- (filter_all (hasID k) (run visit1)) by by apply Hout.
    rewrite <- (filter_all (hasID k) (run visit2)) by by apply Hout.
    apply Hdev.
Qed.

(** The amended C4 on the sample file and its two visiting orders. *)
Lemma C4_runs_agree_up_to_group_order_witness :
  let run visit :=
    filterRecords (processGroups insertionSorter sampleDistance visit)
                  (of_int 0) in
  RangeOver (groupByID sampleRecords) sampleVisit12
  /\ RangeOver (groupByID sampleRecords) sampleVisit21
  /\ run sampleVisit12 ≡ₚ run sampleVisit21
  /\ filter (hasID "d1") (run sampleVisit12)
     = filter (hasID "d1") (run sampleVisit21).
Proof.
  intros run.
  assert (H12 : RangeOver (groupByID sampleRecords) sampleVisit12)
    by (unfold RangeOver; vm_compute; reflexivity).
  assert (H21 : RangeOver (groupByID sampleRecords) sampleVisit21)
    by (unfold RangeOver; vm_compute; apply perm_swap).
  split; [exact H12|]. split; [exact H21|].
  destruct (C4_runs_agree_up_to_group_order insertionSorter sampleDistance
              sampleRecords sampleVisit12 sampleVisit21 (of_int 0) H12 H21)
    as (Hperm & Hdev & _).
  split; [exact Hperm|exact (Hdev "d1")].
Defined.

(** ** C5: the speed policy *)

(** C5. For every derived record that has a predecessor: the speed is 0
    when the elapsed time is less than or equal to 0, and is
    distance / (elapsed / 3600) when the elapsed time is greater than 0.
    Every division the run evaluates has an elapsed time greater than 0,
    so none divides by a zero elapsed time. *)
Theorem C5_speed_policy (sorter : SliceSort) (hd : DistanceFn)
    (visit pre post : list (string * list GpsRecord))
    (k : string) (g : list GpsRecord) :
  visit = pre ++ (k, g) :: post ->
  let sorted := sortSlice sorter lessByTimestamp g in
  let out := processGroups sorter hd visit in
  let base := length (processGroups sorter hd pre) in
  (forall (i : nat) prev cur,
     sorted !! i = Some prev -> sorted !! S i = Some cur ->
     exists r, out !! (base + S i)%nat = Some r
       /\ (le (TimeDiff r) zero = true -> Speed r = zero)
       /\ (gt (TimeDiff r) zero = true ->
           Speed r = div (Distance r) (div (TimeDiff r) (of_int 3600))))
  /\ Forall (fun d => gt (elapsed d) zero = true
                      /\ is_zero (elapsed d) = false)
            (snd (processGroupsTrace sorter hd visit)).
Proof.
  intros -> sorted out base. split.
  - intros i prev cur Hprev Hcur.
    exists (fst (withPrevious hd prev cur)).
    assert (Hi : (S i < length g)%nat).
    { rewrite <- (Permutation_length
                   (sortSlice_perm sorter _ lessByTimestamp g)).
      by apply lookup_lt_Some in Hcur. }
    split.
    { unfold out, base. rewrite processGroups_lookup by done.
      rewrite groupOutput_lookup. fold sorted. rewrite Hcur. simpl.
      by rewrite Hprev. }
    unfold withPrevious.
    destruct (gt (Time.Seconds _) zero) eqn:Hgt; simpl.
    + split; [|done]. intros Hle.
      apply float_le_zero_not_gt in Hle. congruence.
    + split; [done|]. intros Hgt'. congruence.
  - rewrite processGroupsTrace_divisions.
    apply Forall_concat, Forall_fmap, Forall_forall. intros e _. simpl.
    eapply Forall_impl; [apply divided_guarded|]. simpl.
    intros d Hd. split; [done|]. by apply float_gt_zero_not_zero.
Qed.

(** C5 on the sample file: the second record of device d1 moved for 60
    seconds and its speed is the quotient. *)
Lemma C5_speed_policy_witness :
  exists r,
    processGroups insertionSorter sampleDistance sampleVisit12 !! 1%nat
      = Some r
    /\ gt (TimeDiff r) zero = true
    /\ Speed r = div (Distance r) (div (TimeDiff r) (of_int 3600))
    /\ Speed r = of_int 6660.
Proof.
  destruct (C5_speed_policy insertionSorter sampleDistance sampleVisit12
              [] [("d2", sampleGroup2)] "d1" sampleGroup1 eq_refl)
    as [Hnext _].
  destruct (Hnext 0%nat
              (rawRecord "d1" (of_int 40) (of_int (-74))
                 (Time.mkTime noon 0 0) 2)
              (rawRecord "d1" (of_int 41) (of_int (-74))
                 (Time.mkTime (noon + 60) 0 0) 4)
              eq_refl eq_refl)
    as (r & Hr & _ & Hspeed).
  exists r. split; [exact Hr|].
  assert (Hgt : gt (TimeDiff r) zero = true).
  { vm_compute in Hr. injection Hr as Hr. by rewrite <- Hr. }
  split; [exact Hgt|]. split; [exact (Hspeed Hgt)|].
  vm_compute in Hr. injection Hr as Hr. by rewrite <- Hr.
Defined.

(** ** C6: the length law *)

(** C6. For every raw input and every order in which the groups are
    visited, derivation yields exactly one record per raw record, a group
    of N records contributes exactly N derived records, and filtering
    selects a subsequence: len(filtered) <= len(derived) = len(raw). *)
Theorem C6_length_law (sorter : SliceSort) (hd : DistanceFn)
    (records : list GpsRecord) (visit : list (string * list GpsRecord))
    (t : float64) :
  RangeOver (groupByID records) visit ->
  let derivedRecords := processGroups sorter hd visit in
  let filtered := filterRecords derivedRecords t in
  length derivedRecords = length records
  /\ (length filtered <= length derivedRecords)%nat
  /\ (length derivedRecords <= length records)%nat
  /\ sublist filtered derivedRecords
  /\ (forall acc k g, (k, g) ∈ visit ->
        length (fst (processGroup sorter hd acc (k, g)))
        = (length (fst acc) + length g)%nat).
Proof.
  intros Hrange derivedRecords filtered.
  assert (Hlen : length derivedRecords = length records)
    by by apply length_processGroups.
  assert (Hsub : sublist filtered derivedRecords).
  { unfold filtered. rewrite filterRecords_filter. apply filter_sublist. }
  split; [done|]. split; [by apply sublist_length|].
  split; [lia|]. split; [done|].
  intros acc k g _. rewrite processGroup_spec. simpl.
  by rewrite length_app, length_groupOutput.
Qed.

(** C6 on the sample file: four raw records, four derived, two kept. *)
Lemma C6_length_law_witness :
  RangeOver (groupByID sampleRecords) sampleVisit21
  /\ length (processGroups reversingSorter sampleDistance sampleVisit21)
     = 4%nat
  /\ length (filterRecords
               (processGroups reversingSorter sampleDistance sampleVisit21)
               (of_int 0)) = 2%nat.
Proof.
  assert (Hrange : RangeOver (groupByID sampleRecords) sampleVisit21).
  { unfold RangeOver. vm_compute. apply perm_swap. }
  split; [exact Hrange|].
  destruct (C6_length_law reversingSorter sampleDistance sampleRecords
              sampleVisit21 (of_int 0) Hrange) as (Hlen & _).
  split; [exact Hlen|]. vm_compute. reflexivity.
Defined.

(** ** C7: threshold monotonicity *)

(** C7. For every list of records and thresholds t1 < t2, every record that
    survives the filter at t2 survives it at t1; the survivors at t2 are
    even a subsequence of the survivors at t1. *)
Theorem C7_threshold_monotonicity (records : list GpsRecord)
    (t1 t2 : float64) :
  lt t1 t2 = true ->
  (forall r, r ∈ filterRecords records t2 -> r ∈ filterRecords records t1)
  /\ sublist (filterRecords records t2) (filterRecords records t1).
Proof.
  intros Hlt.
  assert (Hsub : sublist (filterRecords records t2)
                         (filterRecords records t1)).
  { rewrite !filterRecords_filter. apply filter_sublist_mono.
    intros r. unfold keeps. rewrite !andb_true_iff, !ge_is_le.
    intros [Hp Hs]. split; [done|].
    by apply (float_lt_le_trans t1 t2 (Speed r)). }
  split; [|done].
  intros r Hr. by apply (elem_of_sublist _ _ r Hr Hsub).
Qed.

(** C7 on the sample file, with thresholds 0 < 100. *)
Lemma C7_threshold_monotonicity_witness :
  let records := processGroups insertionSorter sampleDistance sampleVisit12 in
  lt (of_int 0) (of_int 100) = true
  /\ sublist (filterRecords records (of_int 100))
             (filterRecords records (of_int 0))
  /\ length (filterRecords records (of_int 100)) = 1%nat
  /\ length (filterRecords records (of_int 0)) = 2%nat.
Proof.
  intros records.
  assert (Hlt : lt (of_int 0) (of_int 100) = true) by reflexivity.
  split; [exact Hlt|].
  split;
    [exact (proj2 (C7_threshold_monotonicity records (of_int 0) (of_int 100)
                     Hlt))|].
  split; vm_compute; reflexivity.
Defined.

(** ** C8: the geodesic distance function *)

(** C8. The distance is the haversine formula with mean Earth radius
    6371 km; it is symmetric, it is 0 for identical points, and between
    (0,0) and (0,1) it is within 0.5 km of 111.19 km. Stated over the real
    numbers, for all coordinates. *)
Theorem C8_haversine_distance :
  (forall lat1 lon1 lat2 lon2 : R,
     haversine.Distance lat1 lon1 lat2 lon2
     = (2 * 6371
        * haversine.atan2
            (sqrt (haversine.haversineA lat1 lon1 lat2 lon2))
            (sqrt (1 - haversine.haversineA lat1 lon1 lat2 lon2)))%R)
  /\ (forall lat1 lon1 lat2 lon2 : R,
        haversine.Distance lat1 lon1 lat2 lon2
        = haversine.Distance lat2 lon2 lat1 lon1)
  /\ (forall lat lon : R, haversine.Distance lat lon lat lon = 0%R)
  /\ (Rabs (haversine.Distance 0 0 0 1 - 111.19) < 0.5)%R.
Proof.
  split; [reflexivity|]. split; [|split].
  - intros lat1 lon1 lat2 lon2. unfold haversine.Distance.
    by rewrite (haversineA_sym lat1 lon1 lat2 lon2).
  - intros lat lon. unfold haversine.Distance.
    rewrite haversineA_same, Rminus_0_r, sqrt_0, sqrt_1.
    unfold haversine.atan2.
    destruct (Rlt_dec 0 1) as [_|Hn]; [|exfalso; apply Hn; lra].
    replace (0 / 1)%R with 0%R by lra. rewrite atan_0. lra.
  - rewrite Distance_equator_degree. unfold haversine.earthRadiusKm.
    pose proof PI_bounds as [Hlo Hhi].
    apply Rabs_def1; lra.
Qed.

(** ** C9: original positions *)

(** C9, as amended. [readCSV] numbers the records by their row in the
    file with the header counted as row 1: the record of the k-th data row
    (k from 0) has original position k+2, so the positions are unique,
    strictly increasing in file order, and at least 2. One record is made
    for each data row. *)
Theorem C9_positions_count_the_header
    (ParseFloat : string -> option float64)
    (ParseTime : string -> option Time.Time)
    (reads : list Read) (config : Columns) (records : list GpsRecord) :
  readCSV ParseFloat ParseTime reads config = Ok records ->
  Z.of_nat (length reads) <= maxInt64 ->
  length records = (length reads - 1)%nat
  /\ (forall (i : nat) r, records !! i = Some r ->
        OriginalRow r = Z.of_nat i + 2)
  /\ (forall (i j : nat) ri rj,
        records !! i = Some ri -> records !! j = Some rj ->
        (i < j)%nat -> OriginalRow ri < OriginalRow rj)
  /\ (forall (i j : nat) ri rj,
        records !! i = Some ri -> records !! j = Some rj ->
        OriginalRow ri = OriginalRow rj -> i = j).
Proof.
  intros Hread Hmax.
  destruct (readCSV_Ok _ _ _ _ _ Hread Hmax) as [Hlen Hrows].
  split; [done|]. split; [intros i r Hr; exact (proj1 (Hrows i r Hr))|].
  split.
  - intros i j ri rj Hi Hj Hij.
    destruct (Hrows i ri Hi) as [-> _], (Hrows j rj Hj) as [-> _]. lia.
  - intros i j ri rj Hi Hj.
    destruct (Hrows i ri Hi) as [-> _], (Hrows j rj Hj) as [-> _]. lia.
Qed.

(** The amended C9 on the sample file. *)
Lemma C9_positions_count_the_header_witness :
  readCSV sampleParseFloat sampleParseTime sampleReads sampleConfig
    = Ok sampleRecords
  /\ Z.of_nat (length sampleReads) <= maxInt64
  /\ length sampleRecords = 4%nat
  /\ forall (i : nat) r, sampleRecords !! i = Some r ->
       OriginalRow r = Z.of_nat i + 2.
Proof.
  assert (Hread : readCSV sampleParseFloat sampleParseTime sampleReads
                    sampleConfig = Ok sampleRecords)
    by (vm_compute; reflexivity).
  assert (Hmax : Z.of_nat (length sampleReads) <= maxInt64)
    by (vm_compute; discriminate).
  split; [exact Hread|]. split; [exact Hmax|].
  destruct (C9_positions_count_the_header sampleParseFloat sampleParseTime
              sampleReads sampleConfig sampleRecords Hread Hmax)
    as (Hlen & Hrows & _).
  split; [exact Hlen|exact Hrows].
Defined.

(** C9 as stated fails: the first data row of the sample file receives
    position 2, not 1. *)
Lemma C9_first_data_row_is_not_1 :
  exists r rest,
    readCSV sampleParseFloat sampleParseTime sampleReads sampleConfig
      = Ok (r :: rest)
    /\ OriginalRow r = 2
    /\ OriginalRow r <> 1.
Proof.
  eexists _, _. split; [vm_compute; reflexivity|]. by split.
Qed.

(** ** C10: the zero sentinel *)



(** * Further properties of the code *)

(** ** readCSV: the header *)

Lemma scanHeader_lastIndex (c : Columns) (header : list string) :
  DistinctColumns c ->
  forall (i : Z) (x : ColumnIdx),
    scanHeader c i header x
    = mkColumnIdx (lastIndexFrom (colID c) i header (idIdx x))
                  (lastIndexFrom (colLatitude c) i header (latIdx x))
                  (lastIndexFrom (colLongitude c) i header (lonIdx x))
                  (lastIndexFrom (colTimestamp c) i header (timestampIdx x)).
Proof.
  intros (H12 & H13 & H14 & H23 & H24 & H34).
  induction header as [|col header IH]; intros i x; simpl.
  - by destruct x.
  - rewrite IH. unfold headerCase.
    destruct (String.eqb_spec col (colID c)) as [->|N1].
    { simpl. rewrite (proj2 (String.eqb_neq _ _) H12),
        (proj2 (String.eqb_neq _ _) H13), (proj2 (String.eqb_neq _ _) H14).
      done. }
    destruct (String.eqb_spec col (colLatitude c)) as [->|N2].
    { simpl. rewrite (proj2 (String.eqb_neq _ _) H23),
        (proj2 (String.eqb_neq _ _) H24). done. }
    destruct (String.eqb_spec col (colLongitude c)) as [->|N3].
    { simpl. by rewrite (proj2 (String.eqb_neq _ _) H34). }
    destruct (String.eqb_spec col (colTimestamp c)) as [->|N4]; done.
Qed.

Lemma lastIndexFrom_found (name : string) (header : list string) :
  forall (i found : Z),
    name ∈ header -> i <= lastIndexFrom name i header found.
Proof.
  induction header as [|col header IH]; intros i found Hin.
  - by apply elem_of_nil in Hin.
  - simpl. destruct (String.eqb_spec col name) as [->|Hne].
    + destruct (decide (name ∈ header)) as [Hin'|Hnin].
      * specialize (IH (i + 1) i Hin'). lia.
      * clear IH Hin. revert i.
        assert (Hkeep : forall j f, lastIndexFrom name j header f = f).
        { clear -Hnin. induction header as [|c h IH]; intros j f; simpl.
          - done.
          - apply not_elem_of_cons in Hnin as [Hne Hnin].
            destruct (String.eqb_spec c name) as [->|_]; [done|].
            by apply IH. }
        intros i. rewrite Hkeep. lia.
    + apply elem_of_cons in Hin as [->|Hin]; [done|].
      specialize (IH (i + 1) found Hin). lia.
Qed.

Lemma lastIndexFrom_absent (name : string) (header : list string) :
  forall (i found : Z),
    name ∉ header -> lastIndexFrom name i header found = found.
Proof.
  induction header as [|col header IH]; intros i found Hnin; simpl.
  - done.
  - apply not_elem_of_cons in Hnin as [Hne Hnin].
    destruct (String.eqb_spec col name) as [->|_]; [done|].
    by apply IH.
Qed.

Lemma lastIndexFrom_minus1 (name : string) (header : list string) :
  lastIndexFrom name 0 header (-1) = -1 <-> name ∉ header.
Proof.
  split.
  - intros Heq Hin.
    pose proof (lastIndexFrom_found name header 0 (-1) Hin). lia.
  - apply lastIndexFrom_absent.
Qed.

Lemma readRows_not_missing (ParseFloat : string -> option float64)
    (ParseTime : string -> option Time.Time) (x : ColumnIdx)
    (reads : list Read) :
  forall (rowNumber : Z) (acc : list GpsRecord),
    readRows ParseFloat ParseTime x reads rowNumber acc
    <> Err ErrMissingColumns
    /\ readRows ParseFloat ParseTime x reads rowNumber acc
       <> Err ErrReadingHeader.
Proof.
  induction reads as [|[row|] reads IH]; intros rowNumber acc; simpl;
    [done| |done].
  unfold mbind, result_bind, bind, index, orFail.
  repeat match goal with
    | |- context [if ?b then _ else _] => destruct b
    | |- context [match ?o with Some _ => _ | None => _ end] => destruct o
    end; try done; apply IH.
Qed.

(** X1. When the four configured column names differ from each other, [readCSV]
    reports missing columns exactly when one of the names is not a column
    of the header it read. *)
Theorem X1_missing_columns_iff (ParseFloat : string -> option float64)
    (ParseTime : string -> option Time.Time)
    (header : list string) (rest : list Read) (config : Columns) :
  DistinctColumns config ->
  readCSV ParseFloat ParseTime (ReadRow header :: rest) config
    = Err ErrMissingColumns
  <-> ~ (colID config ∈ header /\ colLatitude config ∈ header
         /\ colLongitude config ∈ header /\ colTimestamp config ∈ header).
Proof.
  intros Hd. unfold readCSV.
  rewrite (scanHeader_lastIndex config header Hd). simpl.
  pose proof (lastIndexFrom_minus1 (colID config) header) as H1.
  pose proof (lastIndexFrom_minus1 (colLatitude config) header) as H2.
  pose proof (lastIndexFrom_minus1 (colLongitude config) header) as H3.
  pose proof (lastIndexFrom_minus1 (colTimestamp config) header) as H4.
  destruct (_ || _) eqn:Hany.
  - split; [|done]. intros _ (I1 & I2 & I3 & I4).
    rewrite !orb_true_iff, !Z.eqb_eq in Hany. tauto.
  - split.
    + intros Hmiss. by apply readRows_not_missing in Hmiss.
    + intros Hnot. exfalso. apply Hnot.
      rewrite !orb_false_iff, !Z.eqb_neq in Hany.
      destruct Hany as (((N1 & N2) & N3) & N4).
      repeat split;
        match goal with
        | |- ?n ∈ header => destruct (decide (n ∈ header)); [done|tauto]
        end.
Qed.

(** X1 on the sample file: the names differ and all four are columns. *)
Lemma X1_missing_columns_iff_witness :
  DistinctColumns sampleConfig
  /\ readCSV sampleParseFloat sampleParseTime sampleReads sampleConfig
     <> Err ErrMissingColumns.
Proof.
  assert (Hd : DistinctColumns sampleConfig) by (repeat split; discriminate).
  split; [exact Hd|].
  intros Hmiss.
  apply (X1_missing_columns_iff sampleParseFloat sampleParseTime _ _ _ Hd)
    in Hmiss.
  apply Hmiss. vm_compute. repeat split; repeat constructor.
Defined.

Lemma scanHeader_shadowed (c : Columns) (header : list string) :
  forall (i : Z) (x : ColumnIdx),
    (colLatitude c = colID c ->
       latIdx (scanHeader c i header x) = latIdx x)
    /\ (colLongitude c = colID c \/ colLongitude c = colLatitude c ->
          lonIdx (scanHeader c i header x) = lonIdx x)
    /\ (colTimestamp c = colID c \/ colTimestamp c = colLatitude c
        \/ colTimestamp c = colLongitude c ->
          timestampIdx (scanHeader c i header x) = timestampIdx x).
Proof.
  induction header as [|col header IH]; intros i x; simpl; [done|].
  destruct (IH (i + 1) (headerCase c i col x)) as (IH1 & IH2 & IH3).
  unfold headerCase in *.
  destruct (String.eqb_spec col (colID c)) as [E1|N1];
    [|destruct (String.eqb_spec col (colLatitude c)) as [E2|N2];
      [|destruct (String.eqb_spec col (colLongitude c)) as [E3|N3];
        [|destruct (String.eqb_spec col (colTimestamp c)) as [E4|N4]]]];
    simpl in *;
    (split; [intros H; rewrite IH1 by done; congruence|]);
    (split; [intros H; rewrite IH2 by done; destruct H; congruence|]);
    intros H; rewrite IH3 by done; destruct H as [H|[H|H]]; congruence.
Qed.

(** X2. When two of the configured column names coincide, [readCSV] reports
    missing columns for every header: the switch over the header assigns
    a column to the first of the coinciding roles only. *)
Theorem X2_coinciding_names_always_missing
    (ParseFloat : string -> option float64)
    (ParseTime : string -> option Time.Time)
    (header : list string) (rest : list Read) (config : Columns) :
  ~ DistinctColumns config ->
  readCSV ParseFloat ParseTime (ReadRow header :: rest) config
  = Err ErrMissingColumns.
Proof.
  intros Hnd. unfold readCSV.
  destruct (scanHeader_shadowed config header 0
              (mkColumnIdx (-1) (-1) (-1) (-1))) as (H1 & H2 & H3).
  simpl in H1, H2, H3.
  assert (Hcase : colLatitude config = colID config
            \/ (colLongitude config = colID config
                \/ colLongitude config = colLatitude config)
            \/ (colTimestamp config = colID config
                \/ colTimestamp config = colLatitude config
                \/ colTimestamp config = colLongitude config)).
  { unfold DistinctColumns in Hnd.
    destruct (decide (colID config = colLatitude config)); [by left|].
    destruct (decide (colID config = colLongitude config));
      [right; left; by left|].
    destruct (decide (colID config = colTimestamp config));
      [right; right; by left|].
    destruct (decide (colLatitude config = colLongitude config));
      [right; left; by right|].
    destruct (decide (colLatitude config = colTimestamp config));
      [right; right; right; by left|].
    destruct (decide (colLongitude config = colTimestamp config));
      [right; right; right; by right|].
    tauto. }
  destruct Hcase as [H|[H|H]].
  - rewrite (H1 H). simpl. by rewrite orb_true_r.
  - rewrite (H2 H). simpl. by rewrite orb_true_r.
  - rewrite (H3 H). simpl. by rewrite orb_true_r.
Qed.

(** X2 with the latitude column configured under the name of the ID
    column. *)
Lemma X2_coinciding_names_always_missing_witness :
  ~ DistinctColumns (mkColumns "ID" "ID" "longitude" "timestamp")
  /\ readCSV sampleParseFloat sampleParseTime sampleReads
       (mkColumns "ID" "ID" "longitude" "timestamp")
     = Err ErrMissingColumns.
Proof.
  assert (Hnd : ~ DistinctColumns (mkColumns "ID" "ID" "longitude" "timestamp"))
    by (intros (H & _); by apply H).
  split; [exact Hnd|].
  exact (X2_coinciding_names_always_missing sampleParseFloat sampleParseTime
           _ _ _ Hnd).
Defined.

(** ** readCSV: the rows *)

Lemma scanHeader_range (c : Columns) (header : list string) :
  forall (i : Z) (x : ColumnIdx),
    let inRange z := z = -1 \/ 0 <= z < i + Z.of_nat (length header) in
    0 <= i ->
    inRange (idIdx x) -> inRange (latIdx x) -> inRange (lonIdx x) ->
    inRange (timestampIdx x) ->
    let y := scanHeader c i header x in
    inRange (idIdx y) /\ inRange (latIdx y) /\ inRange (lonIdx y)
    /\ inRange (timestampIdx y).
Proof.
  induction header as [|col header IH]; intros i x inRange Hi H1 H2 H3 H4.
  - simpl. done.
  - simpl scanHeader. unfold inRange in *. cbn [length] in *.
    rewrite Nat2Z.inj_succ in *.
    specialize (IH (i + 1) (headerCase c i col x)). simpl in IH.
    replace (i + 1 + Z.of_nat (length header))
      with (i + Z.succ (Z.of_nat (length header))) in IH by lia.
    apply IH; [lia|unfold headerCase..];
      repeat match goal with
        | |- context [if ?b then _ else _] => destruct b
        end; simpl; lia.
Qed.

Lemma index_in_range (row : list string) (i : Z) :
  0 <= i < Z.of_nat (length row) -> exists s, index row i = Ok s.
Proof.
  intros Hi. unfold index.
  destruct (Z.ltb_spec i 0); [lia|].
  destruct (lookup_lt_is_Some_2 row (Z.to_nat i)) as [s Hs]; [lia|].
  exists s. by rewrite Hs.
Qed.

(** X3. When every row the csv reader returns has as many fields as the header
    (which the reader enforces), [readCSV] never indexes a row out of
    range. *)
Theorem X3_readCSV_never_panics (ParseFloat : string -> option float64)
    (ParseTime : string -> option Time.Time)
    (reads : list Read) (config : Columns) :
  (forall header row, head reads = Some (ReadRow header) ->
     ReadRow row ∈ reads -> length row = length header) ->
  readCSV ParseFloat ParseTime reads config <> Panic.
Proof.
  intros Hrect. unfold readCSV.
  destruct reads as [|[header|] rest]; [done| |done].
  destruct (scanHeader_range config header 0
              (mkColumnIdx (-1) (-1) (-1) (-1)))
    as (R1 & R2 & R3 & R4); simpl; [lia|by left..|].
  set (x := scanHeader config 0 header _) in *.
  destruct (_ || _) eqn:Hany; [done|].
  rewrite !orb_false_iff, !Z.eqb_neq in Hany.
  destruct Hany as (((N1 & N2) & N3) & N4).
  assert (Hrows : forall row, ReadRow row ∈ rest ->
            length row = length header).
  { intros row Hin. apply (Hrect header row eq_refl). by constructor. }
  clear Hrect. generalize (@nil GpsRecord) as acc. generalize 1 as rowNumber.
  induction rest as [|[row|] rest IH]; intros rowNumber acc; simpl;
    [done| |done].
  assert (Hlen : length row = length header)
    by (apply Hrows; constructor).
  destruct (index_in_range row (latIdx x)) as [s1 ->]; [rewrite Hlen; lia|].
  destruct (index_in_range row (lonIdx x)) as [s2 ->]; [rewrite Hlen; lia|].
  destruct (index_in_range row (timestampIdx x)) as [s3 ->];
    [rewrite Hlen; lia|].
  destruct (index_in_range row (idIdx x)) as [s4 ->]; [rewrite Hlen; lia|].
  unfold mbind, result_bind, bind, orFail.
  destruct (ParseFloat s1); [|done]. destruct (ParseFloat s2); [|done].
  destruct (ParseTime s3); [|done].
  apply IH. intros row' Hin. apply Hrows. by constructor.
Qed.

(** X3 on the sample file, whose rows all have four fields. *)
Lemma X3_readCSV_never_panics_witness :
  readCSV sampleParseFloat sampleParseTime sampleReads sampleConfig <> Panic.
Proof.
  apply X3_readCSV_never_panics.
  intros header row Hhead Hin. injection Hhead as <-.
  unfold sampleReads in Hin.
  repeat (apply elem_of_cons in Hin as [Hin|Hin];
          [by injection Hin as ->|]).
  by apply elem_of_nil in Hin.
Defined.

Lemma scanHeader_names (c : Columns) (header : list string) :
  forall (pre : list string) (x : ColumnIdx),
    let named z name :=
      z = -1 \/ (pre ++ header) !! Z.to_nat z = Some name /\ 0 <= z in
    named (idIdx x) (colID c) -> named (latIdx x) (colLatitude c) ->
    named (lonIdx x) (colLongitude c) ->
    named (timestampIdx x) (colTimestamp c) ->
    let y := scanHeader c (Z.of_nat (length pre)) header x in
    named (idIdx y) (colID c) /\ named (latIdx y) (colLatitude c)
    /\ named (lonIdx y) (colLongitude c)
    /\ named (timestampIdx y) (colTimestamp c).
Proof.
  induction header as [|col header IH]; intros pre x named H1 H2 H3 H4.
  - simpl. done.
  - simpl scanHeader. unfold named in *.
    specialize (IH (pre ++ [col]) (headerCase c (Z.of_nat (length pre)) col x)).
    rewrite length_app, <- !app_assoc in IH. simpl in IH.
    replace (Z.of_nat (length pre + 1)) with (Z.of_nat (length pre) + 1)
      in IH by lia.
    assert (Hcol : (pre ++ col :: header) !! Z.to_nat (Z.of_nat (length pre))
                   = Some col).
    { rewrite Nat2Z.id. by rewrite list_lookup_middle. }
    apply IH; unfold headerCase;
      repeat match goal with
        | |- context [if String.eqb ?a ?b then _ else _] =>
            destruct (String.eqb_spec a b) as [?|?]
        end; simpl;
      first [assumption | right; split; [rewrite Hcol; congruence|lia]].
Qed.

Section RowFacts.

Variable ParseFloat : string -> option float64.
Variable ParseTime : string -> option Time.Time.

Lemma index_Ok (row : list string) (i : Z) (s : string) :
  index row i = Ok s -> row !! Z.to_nat i = Some s /\ 0 <= i.
Proof.
  unfold index. destruct (Z.ltb_spec i 0); [done|].
  destruct (row !! Z.to_nat i); [|done]. by intros [= ->].
Qed.

(** What a successful run of the row loop read each record from. *)
Lemma readRows_provenance (x : ColumnIdx) (reads : list Read) :
  forall (rowNumber : Z) (acc records : list GpsRecord),
    readRows ParseFloat ParseTime x reads rowNumber acc = Ok records ->
    exists new, records = acc ++ new /\
      forall (k : nat) (r : GpsRecord), new !! k = Some r ->
        exists row slat slon sts,
          reads !! k = Some (ReadRow row)
          /\ row !! Z.to_nat (idIdx x) = Some (ID r)
          /\ row !! Z.to_nat (latIdx x) = Some slat
          /\ ParseFloat slat = Some (Latitude r)
          /\ row !! Z.to_nat (lonIdx x) = Some slon
          /\ ParseFloat slon = Some (Longitude r)
          /\ row !! Z.to_nat (timestampIdx x) = Some sts
          /\ ParseTime sts = Some (Timestamp r).
Proof.
  induction reads as [|rd reads IH]; intros rowNumber acc records Hok.
  - simpl in Hok. injection Hok as <-. exists []. rewrite app_nil_r.
    split; [done|]. intros k r Hk. by rewrite lookup_nil in Hk.
  - destruct rd as [row|]; [|done]. simpl in Hok.
    apply bind_Ok in Hok as (slat & Hslat & Hok).
    apply bind_Ok in Hok as (lat & Hlat & Hok).
    apply bind_Ok in Hok as (slon & Hslon & Hok).
    apply bind_Ok in Hok as (lon & Hlon & Hok).
    apply bind_Ok in Hok as (sts & Hsts & Hok).
    apply bind_Ok in Hok as (ts & Hts & Hok).
    apply bind_Ok in Hok as (id & Hid & Hok).
    apply IH in Hok as (new & -> & Hnew).
    eexists (_ :: new). rewrite <- app_assoc. split; [done|].
    intros [|j] r Hj; simpl in Hj.
    + injection Hj as <-. simpl.
      apply index_Ok in Hslat as [Hslat _], Hslon as [Hslon _],
        Hsts as [Hsts _], Hid as [Hid _].
      apply orFail_Ok in Hlat, Hlon, Hts.
      by exists row, slat, slon, sts.
    + destruct (Hnew j r Hj) as (row' & a & b & c0 & Hrest). simpl.
      by exists row', a, b, c0.
Qed.

(** X4. On success every record comes from the data row of its position: its
    ID is the field under a header column that carries the configured ID
    name, and its latitude, longitude and timestamp are the parses of the
    fields under columns that carry the configured names. *)
Theorem X4_fields_come_from_named_columns
    (header : list string) (rest : list Read) (config : Columns)
    (records : list GpsRecord) :
  readCSV ParseFloat ParseTime (ReadRow header :: rest) config
    = Ok records ->
  exists iID iLat iLon iTs : nat,
    header !! iID = Some (colID config)
    /\ header !! iLat = Some (colLatitude config)
    /\ header !! iLon = Some (colLongitude config)
    /\ header !! iTs = Some (colTimestamp config)
    /\ forall (k : nat) (r : GpsRecord), records !! k = Some r ->
         exists row slat slon sts,
           rest !! k = Some (ReadRow row)
           /\ row !! iID = Some (ID r)
           /\ row !! iLat = Some slat /\ ParseFloat slat = Some (Latitude r)
           /\ row !! iLon = Some slon /\ ParseFloat slon = Some (Longitude r)
           /\ row !! iTs = Some sts /\ ParseTime sts = Some (Timestamp r).
Proof.
  unfold readCSV.
  destruct (scanHeader_names config header []
              (mkColumnIdx (-1) (-1) (-1) (-1)))
    as (N1 & N2 & N3 & N4); simpl; [by left..|].
  set (x := scanHeader config 0 header _) in *.
  destruct (_ || _) eqn:Hany; [done|]. intros Hok.
  rewrite !orb_false_iff, !Z.eqb_neq in Hany.
  destruct Hany as (((M1 & M2) & M3) & M4).
  destruct N1 as [?|[N1 _]], N2 as [?|[N2 _]], N3 as [?|[N3 _]],
    N4 as [?|[N4 _]]; try done.
  exists (Z.to_nat (idIdx x)), (Z.to_nat (latIdx x)),
    (Z.to_nat (lonIdx x)), (Z.to_nat (timestampIdx x)).
  repeat (split; [done|]).
  apply readRows_provenance in Hok as (new & Hrec & Hnew).
  simpl in Hrec. subst new. exact Hnew.
Qed.

Lemma readRows_step (x : ColumnIdx) (row : list string) (reads : list Read)
    (rowNumber : Z) (acc : list GpsRecord) :
  readRows ParseFloat ParseTime x (ReadRow row :: reads) rowNumber acc
  = match rowRecord ParseFloat ParseTime x row (wrap64 (rowNumber + 1)) with
    | Ok r =>
        readRows ParseFloat ParseTime x reads (wrap64 (rowNumber + 1))
                 (acc ++ [r])
    | Err e => Err e
    | Panic => Panic
    end.
Proof.
  simpl. unfold rowRecord, mbind, result_bind, bind.
  repeat match goal with
    | |- context [match ?r with Ok _ => _ | Err _ => _ | Panic => _ end] =>
        destruct r; try reflexivity
    end.
Qed.

Lemma rowRecord_failureRow (x : ColumnIdx) (row : list string)
    (rowNumber : Z) (e : Failure) :
  rowRecord ParseFloat ParseTime x row rowNumber = Err e ->
  failureRow e = Some rowNumber.
Proof.
  unfold rowRecord, mbind, result_bind, bind, orFail, index.
  repeat match goal with
    | |- context [if ?b then _ else _] => destruct b
    | |- context [match ?o with Some _ => _ | None => _ end] => destruct o
    end; try done; by intros [= <-].
Qed.

(** The first failure of the row loop: where it is and what came before. *)
Lemma readRows_Err (x : ColumnIdx) (reads : list Read) :
  forall (rowNumber : Z) (acc : list GpsRecord) (e : Failure) (n : Z),
    readRows ParseFloat ParseTime x reads rowNumber acc = Err e ->
    failureRow e = Some n ->
    0 <= rowNumber ->
    rowNumber + Z.of_nat (length reads) <= maxInt64 ->
    exists (k : nat) (recs : list GpsRecord),
      n = rowNumber + Z.of_nat k + 1 /\ (k < length reads)%nat
      /\ readRows ParseFloat ParseTime x (take k reads) rowNumber acc
         = Ok recs
      /\ length recs = (length acc + k)%nat
      /\ readRows ParseFloat ParseTime x (take (S k) reads) rowNumber acc
         = Err e.
Proof.
  induction reads as [|rd reads IH]; intros rowNumber acc e n Herr Hn H0 Hmax.
  - done.
  - destruct rd as [row|]; [|by injection Herr as <-].
    cbn [length] in Hmax. rewrite Nat2Z.inj_succ in Hmax.
    rewrite readRows_step in Herr.
    assert (Hw : wrap64 (rowNumber + 1) = rowNumber + 1)
      by (apply wrap64_small; unfold minInt64, maxInt64 in *; lia).
    rewrite Hw in Herr.
    destruct (rowRecord ParseFloat ParseTime x row (rowNumber + 1))
      as [r|e1|] eqn:Hrow; [| |done].
    + destruct (IH _ _ e n Herr Hn ltac:(lia) ltac:(lia))
        as (k & recs & -> & Hk & Hpre & Hlen & Hfail).
      exists (S k), recs. split; [lia|]. split; [simpl; lia|].
      split; [|split].
      * cbn [take]. by rewrite readRows_step, Hw, Hrow.
      * rewrite Hlen, length_app. simpl. lia.
      * cbn [take]. by rewrite readRows_step, Hw, Hrow.
    + injection Herr as ->.
      apply rowRecord_failureRow in Hrow as Hrow'.
      assert (n = rowNumber + 1) as -> by congruence.
      exists 0%nat, acc. split; [lia|]. split; [simpl; lia|].
      split; [done|]. split; [lia|].
      cbn [take]. by rewrite readRows_step, Hw, Hrow.
Qed.

(** X5. When [readCSV] fails on an unparsable latitude, longitude or
    timestamp, the row number in the failure is the number in the file
    (header = 1) of the first data row that fails: the rows before it are
    all read, and the outcome does not depend on the rows after it. *)
Theorem X5_failure_names_first_bad_row
    (header : list string) (rest : list Read) (config : Columns)
    (e : Failure) (n : Z) :
  readCSV ParseFloat ParseTime (ReadRow header :: rest) config = Err e ->
  failureRow e = Some n ->
  Z.of_nat (length rest) < maxInt64 ->
  exists (k : nat) (recs : list GpsRecord),
    n = Z.of_nat k + 2 /\ (k < length rest)%nat
    /\ readCSV ParseFloat ParseTime (ReadRow header :: take k rest) config
       = Ok recs
    /\ length recs = k
    /\ readCSV ParseFloat ParseTime (ReadRow header :: take (S k) rest)
         config = Err e.
Proof.
  unfold readCSV. destruct (_ || _); [by intros [= <-]|].
  intros Herr Hn Hmax.
  destruct (readRows_Err _ rest 1 [] e n Herr Hn ltac:(lia) ltac:(lia))
    as (k & recs & -> & Hk & Hpre & Hlen & Hfail).
  exists k, recs. split; [lia|]. by repeat split.
Qed.

End RowFacts.

(** X5 on the sample file with a third data row whose latitude does not
    parse: the failure names row 4. *)
Lemma X5_failure_names_first_bad_row_witness :
  let rest := [ ReadRow ["d1"; "40"; "-74"; "2023-03-01T12:00:00Z"];
                ReadRow ["d2"; "0"; "0"; "2023-03-01T12:00:00Z"];
                ReadRow ["d1"; "north"; "-74"; "2023-03-01T12:01:00Z"];
                ReadRow ["d2"; "0"; "0"; "2023-03-01T12:01:00Z"] ] in
  readCSV sampleParseFloat sampleParseTime
    (ReadRow ["ID"; "latitude"; "longitude"; "timestamp"] :: rest)
    sampleConfig = Err (ErrInvalidLatitude 4)
  /\ exists recs,
       readCSV sampleParseFloat sampleParseTime
         (ReadRow ["ID"; "latitude"; "longitude"; "timestamp"] :: take 2 rest)
         sampleConfig = Ok recs
       /\ length recs = 2%nat.
Proof.
  intros rest.
  assert (Herr : readCSV sampleParseFloat sampleParseTime
            (ReadRow ["ID"; "latitude"; "longitude"; "timestamp"] :: rest)
            sampleConfig = Err (ErrInvalidLatitude 4))
    by (vm_compute; reflexivity).
  split; [exact Herr|].
  destruct (X5_failure_names_first_bad_row sampleParseFloat sampleParseTime
              _ rest sampleConfig _ 4 Herr eq_refl
              ltac:(vm_compute; reflexivity))
    as (k & recs & Hn & _ & Hpre & Hlen & _).
  assert (k = 2%nat) as -> by lia.
  exists recs. by split.
Defined.

(** X4 on the sample file. *)
Lemma X4_fields_come_from_named_columns_witness :
  readCSV sampleParseFloat sampleParseTime sampleReads sampleConfig
    = Ok sampleRecords
  /\ exists iID iLat iLon iTs : nat,
       ["ID"; "latitude"; "longitude"; "timestamp"] !! iID
         = Some (colID sampleConfig)
       /\ ["ID"; "latitude"; "longitude"; "timestamp"] !! iLat
            = Some (colLatitude sampleConfig)
       /\ ["ID"; "latitude"; "longitude"; "timestamp"] !! iLon
            = Some (colLongitude sampleConfig)
       /\ ["ID"; "latitude"; "longitude"; "timestamp"] !! iTs
            = Some (colTimestamp sampleConfig)
       /\ forall (k : nat) (r : GpsRecord), sampleRecords !! k = Some r ->
            exists row slat slon sts,
              tail sampleReads !! k = Some (ReadRow row)
              /\ row !! iID = Some (ID r)
              /\ row !! iLat = Some slat
              /\ sampleParseFloat slat = Some (Latitude r)
              /\ row !! iLon = Some slon
              /\ sampleParseFloat slon = Some (Longitude r)
              /\ row !! iTs = Some sts
              /\ sampleParseTime sts = Some (Timestamp r).
Proof.
  assert (Hread : readCSV sampleParseFloat sampleParseTime sampleReads
                    sampleConfig = Ok sampleRecords)
    by (vm_compute; reflexivity).
  split; [exact Hread|].
  exact (X4_fields_come_from_named_columns sampleParseFloat sampleParseTime
           ["ID"; "latitude"; "longitude"; "timestamp"] (tail sampleReads)
           sampleConfig sampleRecords Hread).
Defined.

(** ** groupByID *)

(** X6. The bucket of a key holds exactly the records with that ID, in input
    order, the match on the ID being exact; a key has a bucket exactly
    when some record carries it, so no bucket is empty. *)
Theorem X6_buckets_keep_input_order (records : list GpsRecord) :
  (forall k g, groupByID records !! k = Some g
     <-> g = filter (hasID k) records /\ g <> [])
  /\ (forall k, groupByID records !! k = None
        <-> forall r, r ∈ records -> ID r <> k).
Proof.
  split; intros k; [intros g|]; rewrite groupByID_lookup.
  - destruct (filter (hasID k) records) as [|r g'] eqn:Hf.
    + split; [done|]. by intros [-> ?].
    + split; [by intros [= <-]|]. by intros [-> _].
  - destruct (filter (hasID k) records) as [|r g'] eqn:Hf.
    + split; [|done]. intros _ r Hr Hid.
      assert (Hin : r ∈ filter (hasID k) records)
        by by apply list_elem_of_filter.
      rewrite Hf in Hin. by apply elem_of_nil in Hin.
    + split; [done|]. intros Hnone. exfalso.
      assert (Hin : r ∈ filter (hasID k) records)
        by (rewrite Hf; constructor).
      apply list_elem_of_filter in Hin as [Hid Hin].
      by apply (Hnone r Hin).
Qed.

Lemma length_concat_nonempty {A : Type} (ls : list (list A)) :
  Forall (fun l => l <> []) ls -> (length ls <= length (concat ls))%nat.
Proof.
  induction 1 as [|l ls Hl _ IH]; simpl; [done|].
  rewrite length_app. destruct l; [done|]. simpl. lia.
Qed.

(** X7. The buckets partition the input: together they hold the input records
    (as a multiset), every bucket is non-empty and holds records of its
    own key only, and there are at most as many buckets as records. *)
Theorem X7_buckets_partition_the_input (records : list GpsRecord) :
  concat (map_to_list (groupByID records)).*2 ≡ₚ records
  /\ (forall k g, groupByID records !! k = Some g ->
        g <> [] /\ Forall (hasID k) g)
  /\ (size (groupByID records) <= length records)%nat.
Proof.
  split; [apply groupByID_concat|]. split.
  - intros k g Hk. apply groupByID_Some in Hk as [-> Hne].
    split; [done|]. apply Forall_forall. intros r Hr.
    by apply list_elem_of_filter in Hr as [Hr _].
  - rewrite <- (Permutation_length (groupByID_concat records)).
    rewrite <- length_map_to_list, <- (length_fmap snd).
    apply length_concat_nonempty, Forall_forall. intros g Hg.
    apply list_elem_of_fmap in Hg as ([k g'] & -> & Hin). simpl.
    apply elem_of_map_to_list in Hin.
    by apply groupByID_Some in Hin as [_ Hne].
Qed.

(** ** processGroups: nothing lost, nothing altered *)

Lemma derived_rawOf (hd : DistanceFn) (g : list GpsRecord) :
  rawOf <$> derived hd g = rawOf <$> g.
Proof.
  apply list_eq. intros i. rewrite !list_lookup_fmap, lookup_derived.
  destruct (g !! i) as [cur|]; [|done]. simpl. unfold rawOf.
  by destruct (derivedAt_raw hd g i cur) as (-> & -> & -> & -> & ->).
Qed.

(** X8. Whatever the order of the groups and the sorting algorithm, the output
    of [processGroups] holds the input records, each once, with their ID,
    latitude, longitude, timestamp and original row unchanged. *)
Theorem X8_raw_fields_preserved (sorter : SliceSort) (hd : DistanceFn)
    (records : list GpsRecord) (visit : list (string * list GpsRecord)) :
  RangeOver (groupByID records) visit ->
  rawOf <$> processGroups sorter hd visit ≡ₚ rawOf <$> records.
Proof.
  intros Hrange. rewrite <- (groupByID_concat records).
  unfold RangeOver in Hrange. rewrite <- Hrange.
  rewrite processGroups_concat. clear Hrange.
  induction visit as [|[k g] visit IH]; simpl; [done|].
  rewrite !fmap_app, IH. apply Permutation_app_tail.
  unfold groupOutput. rewrite derived_rawOf.
  by rewrite (sortSlice_perm sorter _ lessByTimestamp g).
Qed.

(** X8 on the sample file, visited in the order d2, d1. *)
Lemma X8_raw_fields_preserved_witness :
  RangeOver (groupByID sampleRecords) sampleVisit21
  /\ rawOf <$> processGroups reversingSorter sampleDistance sampleVisit21
     ≡ₚ rawOf <$> sampleRecords.
Proof.
  assert (Hrange : RangeOver (groupByID sampleRecords) sampleVisit21).
  { unfold RangeOver. vm_compute. apply perm_swap. }
  split; [exact Hrange|].
  exact (X8_raw_fields_preserved reversingSorter sampleDistance
           sampleRecords sampleVisit21 Hrange).
Defined.

(** ** filterRecords *)

Lemma List_filter_idem {A : Type} (f : A -> bool) (l : list A) :
  List.filter f (List.filter f l) = List.filter f l.
Proof.
  induction l as [|x l IH]; simpl; [done|].
  destruct (f x) eqn:Hf; simpl; [by rewrite Hf, IH|done].
Qed.

Lemma List_filter_filter_imp {A : Type} (f g : A -> bool) (l : list A) :
  (forall x, g x = true -> f x = true) ->
  List.filter g (List.filter f l) = List.filter g l.
Proof.
  intros Hgf. induction l as [|x l IH]; simpl; [done|].
  destruct (f x) eqn:Hf; simpl.
  - by rewrite IH.
  - destruct (g x) eqn:Hg; [|done]. by rewrite (Hgf x Hg) in Hf.
Qed.

(** X9. Filtering twice changes nothing more: [filterRecords] is idempotent
    for every threshold, and filtering at a threshold t1 and then at a
    higher threshold t2 gives what filtering at t2 alone gives. *)
Theorem X9_filter_composes (records : list GpsRecord) (t1 t2 : float64) :
  filterRecords (filterRecords records t1) t1 = filterRecords records t1
  /\ (lt t1 t2 = true ->
      filterRecords (filterRecords records t1) t2 = filterRecords records t2).
Proof.
  rewrite !filterRecords_filter. split; [apply List_filter_idem|].
  intros Hlt. apply List_filter_filter_imp. intros r. unfold keeps.
  rewrite !andb_true_iff, !ge_is_le. intros [Hp Hs]. split; [done|].
  by apply (float_lt_le_trans t1 t2 (Speed r)).
Qed.

(** X9 on the sample file, with thresholds 0 < 100. *)
Lemma X9_filter_composes_witness :
  let records := processGroups insertionSorter sampleDistance sampleVisit12 in
  lt (of_int 0) (of_int 100) = true
  /\ filterRecords (filterRecords records (of_int 0)) (of_int 100)
     = filterRecords records (of_int 100).
Proof.
  intros records.
  assert (Hlt : lt (of_int 0) (of_int 100) = true) by reflexivity.
  split; [exact Hlt|].
  exact (proj2 (X9_filter_composes records (of_int 0) (of_int 100)) Hlt).
Defined.

Lemma filterBody_count (t : float64) (records : list GpsRecord) :
  forall (acc : list GpsRecord) (n : Z),
    0 <= n -> n + Z.of_nat (length records) <= maxInt64 ->
    snd (foldl (filterBody t) (acc, n) records)
    = n + Z.of_nat
            (length (List.filter
                       (fun r => negb (PreviousRow r =? 0)
                                 && negb (ge (Speed r) t)) records)).
Proof.
  induction records as [|r records IH]; intros acc n H0 Hmax; simpl.
  - lia.
  - cbn [length] in Hmax. rewrite Nat2Z.inj_succ in Hmax.
    unfold filterBody at 2. simpl.
    destruct (PreviousRow r =? 0); simpl; [rewrite IH; lia|].
    destruct (ge (Speed r) t); simpl.
    + rewrite IH; lia.
    + rewrite (wrap64_small (n + 1))
        by (unfold minInt64, maxInt64 in *; lia).
      rewrite IH by lia. rewrite Nat2Z.inj_succ. lia.
Qed.

Lemma List_filter_length_split {A : Type} (f g h : A -> bool) (l : list A) :
  (forall x, (f x = true /\ g x = false /\ h x = false)
             \/ (f x = false /\ g x = true /\ h x = false)
             \/ (f x = false /\ g x = false /\ h x = true)) ->
  length l
  = (length (List.filter f l) + length (List.filter g l)
     + length (List.filter h l))%nat.
Proof.
  intros Hx. induction l as [|x l IH]; simpl; [done|].
  destruct (Hx x) as [(-> & -> & ->)|[(-> & -> & ->)|(-> & -> & ->)]];
    simpl; lia.
Qed.

(** X10. The count that [filterRecords] reports is the number of records that
    have a predecessor and whose speed is not greater than or equal to the
    threshold; with the records kept and the records without predecessor
    it adds up to the number of records. *)
Theorem X10_reported_count (records : list GpsRecord) (t : float64) :
  Z.of_nat (length records) <= maxInt64 ->
  speedFilteredCount records t
  = Z.of_nat (length (List.filter
                        (fun r => negb (PreviousRow r =? 0)
                                  && negb (ge (Speed r) t)) records))
  /\ Z.of_nat (length records)
     = Z.of_nat (length (filterRecords records t))
       + speedFilteredCount records t
       + Z.of_nat (length (List.filter (fun r => PreviousRow r =? 0)
                                       records)).
Proof.
  intros Hmax. unfold speedFilteredCount.
  rewrite filterBody_count by lia. split; [lia|].
  rewrite filterRecords_filter.
  rewrite (List_filter_length_split (keeps t)
             (fun r => negb (PreviousRow r =? 0) && negb (ge (Speed r) t))
             (fun r => PreviousRow r =? 0) records); [lia|].
  intros r. unfold keeps.
  destruct (PreviousRow r =? 0), (ge (Speed r) t); simpl; tauto.
Qed.

(** X10 on the sample file at threshold 100: one record kept, one removed
    for its speed, two removed as first of their group. *)
Lemma X10_reported_count_witness :
  let records := processGroups insertionSorter sampleDistance sampleVisit12 in
  Z.of_nat (length records) <= maxInt64
  /\ speedFilteredCount records (of_int 100) = 1
  /\ length (filterRecords records (of_int 100)) = 1%nat.
Proof.
  intros records.
  assert (Hmax : Z.of_nat (length records) <= maxInt64)
    by (vm_compute; discriminate).
  split; [exact Hmax|].
  destruct (X10_reported_count records (of_int 100) Hmax) as [Hcount _].
  split; [rewrite Hcount|]; vm_compute; reflexivity.
Defined.

(** X11. A threshold that is NaN (the value [strconv.ParseFloat] returns
    for the argument NaN) removes every record, whatever its speed: no
    float64 compares greater than or equal to NaN. *)
Theorem X11_NaN_threshold_removes_all (records : list GpsRecord) :
  filterRecords records S754_nan = [].
Proof.
  assert (Hge : forall x, ge x S754_nan = false) by by intros [[]|[]| |[] m e].
  rewrite filterRecords_filter.
  induction records as [|r records IH]; simpl; [done|].
  unfold keeps at 1. by rewrite Hge, andb_false_r.
Qed.

(** ** processGroups: the elapsed time *)

Lemma NonNegative_le (x : float64) : NonNegative x <-> le zero x = true.
Proof. by destruct x as [[]|[]| |[] m e]. Qed.

Lemma shr_1_nonneg (mrs : shr_record) :
  0 <= shr_m mrs -> 0 <= shr_m (shr_1 mrs).
Proof. destruct mrs as [[|[p|p|]|p] r s]; simpl; lia. Qed.

Lemma iter_shr_1_nonneg (p : positive) (mrs : shr_record) :
  0 <= shr_m mrs -> 0 <= shr_m (SpecFloat.iter_pos shr_1 p mrs).
Proof.
  revert mrs. induction p as [p IH|p IH|]; intros mrs H; simpl.
  - apply IH, IH. by apply shr_1_nonneg.
  - by apply IH, IH.
  - by apply shr_1_nonneg.
Qed.

Lemma shr_fexp_nonneg (m e : Z) (l : location) :
  0 <= m -> 0 <= shr_m (fst (shr_fexp prec emax m e l)).
Proof.
  intros Hm. unfold shr_fexp, shr.
  assert (H0 : 0 <= shr_m (shr_record_of_loc m l))
    by (by destruct l as [|[]]).
  destruct (_ - e) as [|p|p]; simpl; [done| |done].
  by apply iter_shr_1_nonneg.
Qed.

Lemma round_nearest_even_nonneg (m : Z) (l : location) :
  0 <= m -> 0 <= round_nearest_even m l.
Proof.
  intros Hm. destruct l as [|[]]; simpl; try lia.
  destruct (Z.even m); lia.
Qed.

Lemma binary_round_aux_nonneg (m e : Z) (l : location) :
  0 <= m -> NonNegative (binary_round_aux prec emax false m e l).
Proof.
  intros Hm. unfold binary_round_aux.
  pose proof (shr_fexp_nonneg m e l Hm) as H1.
  destruct (shr_fexp prec emax m e l) as [mrs' e']. simpl in H1.
  pose proof (shr_fexp_nonneg _ e' loc_Exact
                (round_nearest_even_nonneg _ (loc_of_shr_record mrs') H1))
    as H2.
  destruct (shr_fexp prec emax _ e' loc_Exact) as [mrs'' e'']. simpl in H2.
  destruct (shr_m mrs'') as [|p|p]; [done| |lia].
  by destruct (e'' <=? emax - prec).
Qed.

Lemma of_int_nonneg (z : Z) : 0 <= z -> NonNegative (of_int z).
Proof.
  intros Hz. unfold of_int, binary_normalize.
  destruct z as [|p|p]; [done| |lia].
  unfold binary_round. destruct (shl_align _ _ _) as [mz ez].
  by apply binary_round_aux_nonneg.
Qed.

Lemma div_nonneg (x : float64) (my : positive) (ey : Z) :
  NonNegative x -> NonNegative (div x (S754_finite false my ey)).
Proof.
  destruct x as [sx|[]| |[] mx ex]; try done; intros _.
  unfold div, SFdiv, SFdiv_core_binary.
  set (m' := match _ - _ with Z0 => _ | Zpos _ => _ | Zneg _ => _ end).
  assert (Hm' : 0 <= m').
  { unfold m'. destruct (_ - _); [lia| |lia].
    rewrite Z.shiftl_mul_pow2 by lia. apply Z.mul_nonneg_nonneg; lia. }
  pose proof (Z_div_mod m' (Z.pos my) ltac:(lia)) as Hdm.
  destruct (Z.div_eucl m' (Z.pos my)) as [q r].
  apply binary_round_aux_nonneg. destruct Hdm as [Hq Hr]. nia.
Qed.

Lemma add_nonneg (x y : float64) :
  NonNegative x -> NonNegative y -> NonNegative (add x y).
Proof.
  destruct x as [[]|[]| |[] mx ex], y as [[]|[]| |[] my ey]; try done;
    intros _ _.
  unfold add, SFadd, cond_Zopp, binary_normalize.
  destruct (shl_align mx ex _) as [ax ?], (shl_align my ey _) as [ay ?].
  simpl. unfold binary_round. destruct (shl_align _ _ _) as [mz ez].
  by apply binary_round_aux_nonneg.
Qed.

Lemma Seconds_nonneg (d : Time.Duration) :
  0 <= d -> NonNegative (Time.Seconds d).
Proof.
  intros Hd. unfold Time.Seconds. apply add_nonneg.
  - apply of_int_nonneg, Z.quot_pos; [done|]. unfold Time.Second. lia.
  - change (of_int 1000000000)
      with (S754_finite false 8388608000000000 (-23)).
    apply div_nonneg, of_int_nonneg, Z.rem_nonneg; [|done].
    unfold Time.Second. lia.
Qed.

(** The duration between a time and one that is not after it. *)
Lemma Sub_nonneg (t u : Time.Time) :
  WellFormedTime t -> WellFormedTime u -> Time.Before t u = false ->
  0 <= Time.Sub t u
  /\ (Time.Sub t u = 0
      <-> Time.sec t = Time.sec u /\ Time.nsec t = Time.nsec u).
Proof.
  unfold WellFormedTime, Time.Before, Time.Sub, Time.Second,
    minInt64, maxInt64.
  intros Ht Hu Hb. apply orb_false_iff in Hb as [Hs Hn].
  apply Z.ltb_ge in Hs. apply andb_false_iff in Hn.
  rewrite Z.eqb_neq, Z.ltb_ge in Hn. cbv zeta.
  change (2 ^ 63) with 9223372036854775808.
  set (d := (Time.sec t - Time.sec u) * 1000000000
            + (Time.nsec t - Time.nsec u)).
  assert (Hd : 0 <= d) by (unfold d; lia).
  assert (Hd0 : d = 0 <-> Time.sec t = Time.sec u
                          /\ Time.nsec t = Time.nsec u)
    by (unfold d; lia).
  destruct (d <? _) eqn:E1; [apply Z.ltb_lt in E1; lia|].
  destruct (_ <? d) eqn:E2; [|by split].
  apply Z.ltb_lt in E2. split; [lia|]. split; [lia|].
  intros Heq. apply Hd0 in Heq. lia.
Qed.

(** X12. After sorting, no record is given a negative elapsed time: for times
    with nanoseconds within the second, the [TimeDiff] of every record
    that [processGroups] returns is zero or positive, and never NaN. *)
Theorem X12_elapsed_time_never_negative (sorter : SliceSort)
    (hd : DistanceFn) (visit : list (string * list GpsRecord)) :
  (forall k g r, (k, g) ∈ visit -> r ∈ g ->
     WellFormedTime (Timestamp r)) ->
  Forall (fun r => le zero (TimeDiff r) = true)
         (processGroups sorter hd visit).
Proof.
  intros Hwf. rewrite processGroups_concat.
  apply Forall_concat, Forall_fmap, Forall_forall. intros [k g] Hin. simpl.
  set (sorted := sortSlice sorter lessByTimestamp g).
  assert (Hs : SortedBy lessByTimestamp sorted)
    by apply sortSlice_sorted, lessByTimestamp_swo.
  assert (Hw : forall i r, sorted !! i = Some r ->
            WellFormedTime (Timestamp r)).
  { intros i r Hr. apply (Hwf k g r Hin).
    apply list_elem_of_lookup_2 in Hr. unfold sorted in Hr.
    by rewrite (sortSlice_perm sorter _ lessByTimestamp g) in Hr. }
  apply Forall_lookup. intros i r Hr.
  rewrite groupOutput_lookup in Hr. fold sorted in Hr.
  destruct (sorted !! i) as [cur|] eqn:Hcur; [|done].
  injection Hr as <-.
  destruct i as [|j]; simpl; [done|].
  destruct (lookup_lt_is_Some_2 sorted j) as [prev Hprev].
  { apply lookup_lt_Some in Hcur. lia. }
  rewrite Hprev.
  assert (Hd : 0 <= Time.Sub (Timestamp cur) (Timestamp prev)).
  { apply Sub_nonneg; [by eapply Hw|by eapply Hw|].
    apply (StronglySorted_lookup _ sorted j (S j) prev cur Hs);
      [lia|done..]. }
  apply NonNegative_le.
  unfold withPrevious. destruct (gt _ zero); simpl; by apply Seconds_nonneg.
Qed.

(** X12 on the sample file. *)
Lemma X12_elapsed_time_never_negative_witness :
  Forall (fun r => le zero (TimeDiff r) = true)
         (processGroups insertionSorter sampleDistance sampleVisit12).
Proof.
  apply X12_elapsed_time_never_negative.
  intros k g r Hin Hr. unfold sampleVisit12 in Hin.
  apply elem_of_cons in Hin as [[= -> ->]|Hin];
    [|apply elem_of_cons in Hin as [[= -> ->]|Hin];
      [|by apply elem_of_nil in Hin]];
    unfold sampleGroup1, sampleGroup2 in Hr;
    repeat (apply elem_of_cons in Hr as [->|Hr];
            [unfold WellFormedTime, Time.Second; simpl; lia|]);
    by apply elem_of_nil in Hr.
Defined.

(** ** File names *)

Lemma list_ascii_of_string_app (a b : string) :
  list_ascii_of_string (a ++ b)
  = list_ascii_of_string a ++ list_ascii_of_string b.
Proof. induction a as [|c a IH]; simpl; [done|]. by rewrite IH. Qed.

Lemma string_of_list_ascii_app (a b : list ascii) :
  string_of_list_ascii (a ++ b)
  = (string_of_list_ascii a ++ string_of_list_ascii b)%string.
Proof. induction a as [|c a IH]; simpl; [done|]. by rewrite IH. Qed.

Lemma string_length_app (a b : string) :
  String.length (a ++ b) = (String.length a + String.length b)%nat.
Proof. induction a as [|c a IH]; simpl; [done|]. by rewrite IH. Qed.

Lemma substring_app_prefix (a b : string) :
  substring 0 (String.length a) (a ++ b) = a.
Proof.
  induction a as [|c a IH]; simpl.
  - by destruct b.
  - by rewrite IH.
Qed.

Lemma extScan_suffix (os : OS) (before : list ascii) :
  forall after, exists pre,
    rev before ++ after = pre ++ extScan os before after.
Proof.
  induction before as [|c before IH]; intros after; simpl.
  - exists after. by rewrite app_nil_r.
  - destruct (IsPathSeparator os c).
    { eexists. by rewrite app_nil_r. }
    destruct (Ascii.eqb c "."%char).
    { exists (rev before). by rewrite <- app_assoc. }
    destruct (IH (c :: after)) as [pre Hpre]. exists pre.
    by rewrite <- app_assoc.
Qed.

(** The extension is a suffix of the path. *)
Lemma Ext_suffix (os : OS) (path : string) :
  exists base, path = (base ++ Ext os path)%string.
Proof.
  unfold Ext.
  destruct (extScan_suffix os (rev (list_ascii_of_string path)) [])
    as [pre Hpre].
  rewrite rev_involutive, app_nil_r in Hpre.
  exists (string_of_list_ascii pre).
  rewrite <- string_of_list_ascii_app, <- Hpre.
  by rewrite string_of_list_ascii_of_string.
Qed.

Lemma getOutputFilename_base (os : OS) (inputFile format : string) :
  exists baseName,
    inputFile = (baseName ++ Ext os inputFile)%string
    /\ getOutputFilename os inputFile format
       = (baseName ++ (if String.eqb format "kml" then "_processed.kml"
                       else "_processed.csv"))%string.
Proof.
  destruct (Ext_suffix os inputFile) as [base Hbase].
  exists base. split; [done|]. unfold getOutputFilename.
  assert (Hsub : substring 0
            (String.length inputFile - String.length (Ext os inputFile))
            inputFile = base).
  { rewrite Hbase at 1 3. rewrite string_length_app.
    replace (String.length base + String.length (Ext os inputFile)
             - String.length (Ext os inputFile))%nat
      with (String.length base) by lia.
    apply substring_app_prefix. }
  rewrite Hsub. by destruct (String.eqb format "kml").
Qed.

Lemma Ext_app_processed (os : OS) (base : string) :
  Ext os (base ++ "_processed.csv") = ".csv"%string
  /\ Ext os (base ++ "_processed.kml") = ".kml"%string.
Proof.
  unfold Ext. rewrite !list_ascii_of_string_app, !rev_app_distr.
  by destruct os.
Qed.

Lemma Contains_app_r (a b sub : string) :
  Contains b sub = true -> Contains (a ++ b) sub = true.
Proof.
  intros Hb. induction a as [|c a IH]; simpl; [done|].
  rewrite IH. apply orb_true_r.
Qed.

Lemma getOutputFilename_processed (os : OS) (inputFile format : string) :
  Contains (getOutputFilename os inputFile format) "_processed" = true.
Proof.
  destruct (getOutputFilename_base os inputFile format) as (base & _ & ->).
  apply Contains_app_r. by destruct (String.eqb format "kml").
Qed.

(** X13. [getOutputFilename] replaces the extension of the input file (the part
    from the last dot of its last path element on, if there is one) by
    "_processed.kml" when the format is "kml" and by "_processed.csv" for
    every other format; what is before the extension is kept. *)
Theorem X13_output_name_replaces_extension (os : OS)
    (inputFile format : string) :
  exists baseName,
    inputFile = (baseName ++ Ext os inputFile)%string
    /\ getOutputFilename os inputFile format
       = (baseName ++ (if String.eqb format "kml" then "_processed.kml"
                       else "_processed.csv"))%string.
Proof. apply getOutputFilename_base. Qed.

(** X14. The names [getOutputFilename] makes have the extension ".kml" or
    ".csv", whatever the extension of the input file was, so the CSV
    output of one run is a ".csv" file of the directory for the next. *)
Theorem X14_output_name_extension (os : OS) (inputFile format : string) :
  Ext os (getOutputFilename os inputFile format)
  = (if String.eqb format "kml" then ".kml" else ".csv")%string.
Proof.
  destruct (getOutputFilename_base os inputFile format) as (base & _ & ->).
  destruct (Ext_app_processed os base) as [Hcsv Hkml].
  by destruct (String.eqb format "kml").
Qed.

(** ** findSingleFileByExtension *)

Lemma matchBody_foldl (os : OS) (extension : string)
    (files : list DirEntry) :
  forall acc,
    foldl (matchBody os extension) acc files
    = acc ++ (Name <$> List.filter (isCandidate os extension) files).
Proof.
  induction files as [|file files IH]; intros acc; simpl.
  - by rewrite app_nil_r.
  - rewrite IH. unfold matchBody, isCandidate.
    destruct (IsDir file); simpl; [done|].
    destruct (String.eqb _ extension); simpl; [|done].
    destruct (Contains _ _); simpl; [done|].
    by rewrite <- app_assoc.
Qed.

(** X15. [findSingleFileByExtension] returns the name of a file exactly when the
    directory holds one and only one file with the extension that is not
    a directory and has no "_processed" in its name; with no such file,
    with several, or when the directory cannot be read, it returns the
    empty string. *)
Theorem X15_single_file_or_nothing (os : OS) (files : list DirEntry)
    (extension : string) :
  let candidates := Name <$> List.filter (isCandidate os extension) files in
  findSingleFileByExtension os None extension = ""%string
  /\ (forall name, candidates = [name] ->
        findSingleFileByExtension os (Some files) extension = name)
  /\ (length candidates <> 1%nat ->
        findSingleFileByExtension os (Some files) extension = ""%string)
  /\ (findSingleFileByExtension os (Some files) extension <> ""%string ->
        exists file, file ∈ files
          /\ Name file = findSingleFileByExtension os (Some files) extension
          /\ IsDir file = false
          /\ Ext os (Name file) = extension
          /\ Contains (Name file) "_processed" = false).
Proof.
  intros candidates. unfold findSingleFileByExtension.
  rewrite matchBody_foldl. simpl. fold candidates.
  split; [done|]. split; [by intros name ->|].
  split; [by destruct candidates as [|a [|b c]]|].
  destruct candidates as [|a [|b c]] eqn:Hc; [done| |done]. intros _.
  assert (Hin : a ∈ candidates) by (rewrite Hc; constructor).
  apply list_elem_of_fmap in Hin as (file & -> & Hin).
  apply list_elem_of_In, filter_In in Hin as [Hin Hcand].
  exists file. split; [by apply list_elem_of_In|]. split; [done|].
  unfold isCandidate in Hcand.
  apply andb_true_iff in Hcand as [Hcand H3].
  apply andb_true_iff in Hcand as [H1 H2].
  apply negb_true_iff in H1, H3. apply String.eqb_eq in H2. done.
Qed.

(** X15 on a directory with an input file, the output of an earlier run,
    a configuration file and a subdirectory. *)
Lemma X15_single_file_or_nothing_witness :
  let files := [ mkDirEntry "config.yaml" false;
                 mkDirEntry "old.csv" true;
                 mkDirEntry "track.csv" false;
                 mkDirEntry "track_processed.csv" false ] in
  findSingleFileByExtension Unix (Some files) ".csv" = "track.csv"%string.
Proof.
  intros files.
  destruct (X15_single_file_or_nothing Unix files ".csv")
    as (_ & Hone & _).
  apply Hone. vm_compute. reflexivity.
Defined.

(** X16. The automatic choice of an input file never falls on a file that an
    earlier run wrote: for no directory, extension, input file and format
    is the name [findSingleFileByExtension] returns one that
    [getOutputFilename] makes. *)
Theorem X16_never_picks_an_output_file (os : OS)
    (files : option (list DirEntry)) (extension inputFile format : string) :
  findSingleFileByExtension os files extension
  <> getOutputFilename os inputFile format.
Proof.
  pose proof (getOutputFilename_processed os inputFile format) as Hout.
  intros Heq. rewrite <- Heq in Hout. clear Heq.
  unfold findSingleFileByExtension in Hout.
  destruct files as [files|]; [|done].
  rewrite matchBody_foldl in Hout. simpl in Hout.
  destruct (Name <$> List.filter _ files) as [|a [|b c]] eqn:Hc;
    [done| |done].
  assert (Hin : a ∈ Name <$> List.filter (isCandidate os extension) files)
    by (rewrite Hc; constructor).
  apply list_elem_of_fmap in Hin as (file & -> & Hin).
  apply list_elem_of_In, filter_In in Hin as [_ Hcand].
  unfold isCandidate in Hcand.
  apply andb_true_iff in Hcand as [_ H3]. apply negb_true_iff in H3.
  congruence.
Qed.

(** ** writeOutputCSV *)

Section WriterFacts.

Variable Sprintf_f : float64 -> string.
Variable Sprintf_d : Z -> string.
Variable FormatRFC3339 : Time.Time -> string.


Variable ParseFloat : string -> option float64.
Variable ParseTime : string -> option Time.Time.

Hypothesis floats_read_back : forall x, is_Some (ParseFloat (Sprintf_f x)).
Hypothesis times_read_back : forall t, is_Some (ParseTime (FormatRFC3339 t)).



End WriterFacts.


(** ** writeOutputKML *)

Lemma placemarks_app (a b : list string) :
  placemarks (a ++ b) = (placemarks a + placemarks b)%nat.
Proof. unfold placemarks. by rewrite List.filter_app, length_app. Qed.

Section KMLFacts.

Variable Sprintf_f : float64 -> string.
Variable Sprintf_2f : float64 -> string.
Variable Sprintf_6f : float64 -> string.
Variable Sprintf_d : Z -> string.
Variable FormatRFC3339 : Time.Time -> string.
Variable sorter : SliceSort.

Lemma placemarks_coordinates (group : list GpsRecord) :
  placemarks (map (kmlCoordinates Sprintf_f) group) = 0%nat.
Proof. induction group as [|r group IH]; [done|exact IH]. Qed.

Lemma placemarks_point (id styleID : string) (i : nat) (r : GpsRecord) :
  placemarks (kmlPoint Sprintf_f Sprintf_2f Sprintf_6f Sprintf_d
                FormatRFC3339 id styleID i r) = 1%nat.
Proof.
  unfold kmlPoint, kmlPrevious, kmlPreviousLines. rewrite !placemarks_app.
  by destruct (PreviousRow r >? 0).
Qed.

Lemma placemarks_points (id styleID : string) (group : list GpsRecord) :
  forall f : nat -> nat,
    placemarks
      (concat (imap (fun i => kmlPoint Sprintf_f Sprintf_2f Sprintf_6f
                               Sprintf_d FormatRFC3339 id styleID (f i))
                    group))
    = length group.
Proof.
  induction group as [|r group IH]; intros f; [done|].
  cbn [imap concat length]. rewrite placemarks_app, placemarks_point.
  f_equal. apply (IH (f ∘ S)).
Qed.

Lemma recordAt_Ok (group : list GpsRecord) (i : Z) :
  0 <= i < Z.of_nat (length group) -> exists r, recordAt group i = Ok r.
Proof.
  intros Hi. unfold recordAt. destruct (i <? 0) eqn:Hneg; [lia|].
  destruct (lookup_lt_is_Some_2 group (Z.to_nat i) ltac:(lia)) as [r ->].
  by exists r.
Qed.

Lemma kmlFolder_Ok (id color : string) (group : list GpsRecord) :
  group <> [] -> Z.of_nat (length group) <= maxInt64 ->
  exists folder,
    kmlFolder Sprintf_f Sprintf_2f Sprintf_6f Sprintf_d FormatRFC3339
      id color group = Ok folder
    /\ placemarks folder = S (length group).
Proof.
  intros Hne Hmax. unfold kmlFolder.
  assert (Hlen : (0 < length group)%nat)
    by (destruct group; [done|simpl; lia]).
  rewrite wrap64_small by (unfold minInt64, maxInt64 in *; lia).
  destruct (recordAt_Ok group 0) as [first ->]; [lia|].
  destruct (recordAt_Ok group (Z.of_nat (length group) - 1)) as [last ->];
    [lia|].
  eexists. split; [reflexivity|].
  rewrite !placemarks_app, placemarks_coordinates.
  rewrite (placemarks_points _ _ _ (fun i => i)).
  unfold kmlStyle, kmlTrajectoryHead, kmlTrajectoryTail, placemarks.
  simpl. lia.
Qed.

Lemma kmlBody_Ok (written : list string) (idCount : Z) (id : string)
    (unsorted : list GpsRecord) :
  0 <= idCount -> idCount + Z.of_nat (length unsorted) <= maxInt64 ->
  unsorted <> [] ->
  exists folder,
    kmlBody Sprintf_f Sprintf_2f Sprintf_6f Sprintf_d FormatRFC3339 sorter
      (written, idCount) (id, unsorted)
    = Ok (written ++ folder, idCount + 1)
    /\ placemarks folder = S (length unsorted).
Proof.
  intros H0 Hmax Hne.
  assert (Hlen : (0 < length unsorted)%nat)
    by (destruct unsorted; [done|simpl; lia]).
  unfold kmlBody.
  set (group := sortSlice sorter lessByTimestamp unsorted).
  assert (Hperm : group ≡ₚ unsorted) by apply sortSlice_perm.
  change (Z.of_nat (length colors)) with 5.
  assert (Hrem : 0 <= Z.rem idCount 5 < 5)
    by (apply Z.rem_bound_pos; lia).
  destruct (lookup_lt_is_Some_2 colors (Z.to_nat (Z.rem idCount 5)))
    as [color Hcolor]; [simpl; lia|].
  assert (Hindex : index colors (Z.rem idCount 5) = Ok color).
  { unfold index. destruct (Z.rem idCount 5 <? 0) eqn:Hneg; [lia|].
    by rewrite Hcolor. }
  rewrite Hindex.
  destruct (kmlFolder_Ok id color group) as (folder & Hfolder & Hcount).
  { intros Hnil. rewrite Hnil in Hperm.
    apply Permutation_nil_l in Hperm. by subst. }
  { rewrite Hperm. lia. }
  exists folder. cbn [mbind result_bind bind]. rewrite Hfolder.
  cbn [mbind result_bind bind].
  rewrite wrap64_small by (unfold minInt64, maxInt64 in *; lia).
  split; [done|]. by rewrite Hcount, Hperm.
Qed.

Lemma kmlBody_foldl (visit : list (string * list GpsRecord)) :
  forall (written : list string) (idCount : Z),
    0 <= idCount ->
    idCount + Z.of_nat (length (concat visit.*2)) <= maxInt64 ->
    Forall (fun entry => entry.2 <> []) visit ->
    exists folders,
      foldl (fun st entry => s ← st;
               kmlBody Sprintf_f Sprintf_2f Sprintf_6f Sprintf_d FormatRFC3339
                 sorter s entry)
            (Ok (written, idCount)) visit
      = Ok (written ++ folders, idCount + Z.of_nat (length visit))
      /\ placemarks folders
         = (length visit + length (concat visit.*2))%nat.
Proof.
  induction visit as [|[id unsorted] visit IH];
    intros written idCount H0 Hmax Hne.
  - exists []. simpl. rewrite app_nil_r, Z.add_0_r. by split.
  - apply Forall_cons in Hne as [Hne1 Hne]. simpl in Hne1.
    cbn [fmap list_fmap concat snd] in Hmax.
    rewrite length_app in Hmax.
    assert (Hlen1 : (0 < length unsorted)%nat)
      by (destruct unsorted; [done|simpl; lia]).
    destruct (kmlBody_Ok written idCount id unsorted)
      as (folder & Hbody & Hcount); [lia|lia|done|].
    destruct (IH (written ++ folder) (idCount + 1))
      as (folders & Hfold & Hcounts); [lia|lia|done|].
    exists (folder ++ folders). split.
    + cbn [foldl]. cbn [mbind result_bind bind]. rewrite Hbody.
      rewrite Hfold, <- app_assoc. do 2 f_equal.
      cbn [length]. lia.
    + rewrite placemarks_app, Hcount, Hcounts.
      cbn [fmap list_fmap concat snd length]. rewrite length_app. lia.
Qed.

Lemma RangeOver_nonempty (records : list GpsRecord) visit :
  RangeOver (groupByID records) visit ->
  Forall (fun entry => entry.2 <> []) visit
  /\ length (concat visit.*2) = length records.
Proof.
  intros Hrange. split.
  - apply Forall_forall. intros [k g] Hin.
    destruct (RangeOver_group records visit k g Hrange Hin) as [-> Hne].
    exact Hne.
  - unfold RangeOver in Hrange. rewrite Hrange.
    apply Permutation_length, groupByID_concat.
Qed.

(** X18. [writeOutputKML] never panics: the groups it builds from any slice of
    records are non-empty, so [group[0]] and [group[len(group)-1]] are in
    range, and the colour index is always one of the five colours. *)
Theorem X18_writeOutputKML_never_panics (records : list GpsRecord) visit :
  RangeOver (groupByID records) visit ->
  Z.of_nat (length records) <= maxInt64 ->
  exists written,
    writeOutputKML Sprintf_f Sprintf_2f Sprintf_6f Sprintf_d FormatRFC3339
      sorter visit = Ok written.
Proof.
  intros Hrange Hmax.
  destruct (RangeOver_nonempty records visit Hrange) as [Hne Hlen].
  destruct (kmlBody_foldl visit kmlHeader 0)
    as (folders & Hfold & _); [lia|lia|done|].
  unfold writeOutputKML. rewrite Hfold. cbn [mbind result_bind bind].
  by eexists.
Qed.


(** X20. On the records that [main] hands to [writeOutputKML], the test
    [record.PreviousRow > 0] always holds: after [filterRecords] every
    record has a predecessor, whose row number [readCSV] made positive.
    Every point of the KML output therefore carries the six lines on its
    predecessor. *)
Theorem X20_points_carry_previous_details
    (ParseFloat : string -> option float64)
    (ParseTime : string -> option Time.Time) (hd : DistanceFn)
    (reads : list Read) (config : Columns) (raw : list GpsRecord) visit
    (t : float64) (r : GpsRecord) :
  readCSV ParseFloat ParseTime reads config = Ok raw ->
  Z.of_nat (length reads) <= maxInt64 ->
  RangeOver (groupByID raw) visit ->
  r ∈ filterRecords (processGroups sorter hd visit) t ->
  0 < PreviousRow r
  /\ kmlPrevious Sprintf_f Sprintf_2f Sprintf_6f FormatRFC3339 r
     = kmlPreviousLines Sprintf_f Sprintf_2f Sprintf_6f FormatRFC3339 r.
Proof.
  intros Hread Hmax Hrange Hr.
  destruct (readCSV_Ok _ _ _ _ _ Hread Hmax) as [_ Hrows].
  rewrite filterRecords_filter in Hr.
  apply list_elem_of_In, filter_In in Hr as [Hr Hkeep].
  unfold keeps in Hkeep. apply andb_true_iff in Hkeep as [Hprev _].
  apply negb_true_iff, Z.eqb_neq in Hprev.
  rewrite processGroups_concat in Hr.
  apply in_concat in Hr as (out & Hout & Hr).
  apply in_map_iff in Hout as ([k g] & <- & Hg). simpl in Hr.
  apply list_elem_of_In in Hr, Hg.
  apply list_elem_of_lookup in Hr as [i Hi].
  rewrite groupOutput_lookup in Hi.
  set (sorted := sortSlice sorter lessByTimestamp g) in *.
  destruct (sorted !! i) as [cur|] eqn:Hcur; [|done].
  injection Hi as <-.
  assert (Hpos : 0 < PreviousRow (derivedAt hd sorted i cur)).
  { destruct i as [|j]; simpl in *; [done|].
    destruct (sorted !! j) as [prev|] eqn:Hp.
    2:{ apply lookup_ge_None in Hp. apply lookup_lt_Some in Hcur. lia. }
    assert (Hprow : 2 <= OriginalRow prev).
    { apply list_elem_of_lookup_2 in Hp. unfold sorted in Hp.
      rewrite (sortSlice_perm sorter) in Hp.
      destruct (RangeOver_group raw visit k g Hrange Hg) as [-> _].
      apply list_elem_of_filter in Hp as [_ Hp].
      apply list_elem_of_lookup in Hp as [n Hn].
      destruct (Hrows n prev Hn) as [-> _]. lia. }
    unfold withPrevious. destruct (gt _ zero); simpl; lia. }
  split; [exact Hpos|]. unfold kmlPrevious.
  destruct (_ >? 0) eqn:Hgt; [done|]. lia.
Qed.

End KMLFacts.

(** X18 on the groups of the sample file. *)
Lemma X18_writeOutputKML_never_panics_witness :
  RangeOver (groupByID sampleRecords) sampleVisit12
  /\ Z.of_nat (length sampleRecords) <= maxInt64
  /\ exists written,
       writeOutputKML sampleSprintf_f sampleSprintf_f sampleSprintf_f
         sampleSprintf_d sampleFormatRFC3339 insertionSorter sampleVisit12
       = Ok written.
Proof.
  assert (Hrange : RangeOver (groupByID sampleRecords) sampleVisit12)
    by (unfold RangeOver; vm_compute; reflexivity).
  assert (Hmax : Z.of_nat (length sampleRecords) <= maxInt64)
    by (vm_compute; discriminate).
  split; [exact Hrange|]. split; [exact Hmax|].
  exact (X18_writeOutputKML_never_panics sampleSprintf_f sampleSprintf_f
           sampleSprintf_f sampleSprintf_d sampleFormatRFC3339
           insertionSorter sampleRecords sampleVisit12 Hrange Hmax).
Defined.


(** X20 on the sample file, at the record kept for device d1. *)
Lemma X20_points_carry_previous_details_witness :
  let r := mkRecord "d1" (of_int 41) (of_int (-74))
             (Time.mkTime (noon + 60) 0 0) 4
             (of_int 60) (of_int 111) (of_int 6660) 2
             (of_int 40) (of_int (-74)) (Time.mkTime noon 0 0) in
  readCSV sampleParseFloat sampleParseTime sampleReads sampleConfig
    = Ok sampleRecords
  /\ Z.of_nat (length sampleReads) <= maxInt64
  /\ RangeOver (groupByID sampleRecords) sampleVisit12
  /\ r ∈ filterRecords
           (processGroups insertionSorter sampleDistance sampleVisit12)
           (of_int 1)
  /\ 0 < PreviousRow r.
Proof.
  intros r.
  assert (Hread : readCSV sampleParseFloat sampleParseTime sampleReads
                    sampleConfig = Ok sampleRecords)
    by (vm_compute; reflexivity).
  assert (Hmax : Z.of_nat (length sampleReads) <= maxInt64)
    by (vm_compute; discriminate).
  assert (Hrange : RangeOver (groupByID sampleRecords) sampleVisit12)
    by (unfold RangeOver; vm_compute; reflexivity).
  assert (Hr : r ∈ filterRecords
                 (processGroups insertionSorter sampleDistance sampleVisit12)
                 (of_int 1)).
  { replace (filterRecords _ _) with [r] by (vm_compute; reflexivity).
    constructor. }
  split; [exact Hread|]. split; [exact Hmax|]. split; [exact Hrange|].
  split; [exact Hr|].
  exact (proj1 (X20_points_carry_previous_details sampleSprintf_f
                  sampleSprintf_f sampleSprintf_f sampleFormatRFC3339
                  insertionSorter sampleParseFloat sampleParseTime
                  sampleDistance sampleReads sampleConfig sampleRecords
                  sampleVisit12 (of_int 1) r Hread Hmax Hrange Hr)).
Defined.
